(** * useBackgroundCycle: a background cycling hook with accent colours

    A shallow embedding of the hook [useBackgroundCycle] and of its helpers
    [clamp], [toRgbTripletString], [deriveSecondaryFromPrimary] and
    [computeAverageColor].

    - JavaScript numbers are IEEE 754 binary64 values: they are modelled by
      the primitive floats of the kernel, so that [c * 1.05] below is the
      very double the engine computes.
    - The pixel buffer of [getImageData] is a [Uint8ClampedArray]: a list of
      bytes, read out of range as [undefined].
    - The hook is a state machine: the React state cells, the two refs, the
      table of live window timers and the store of [cancelled] flags of the
      accent effect make up a [World]; timer callbacks and promise
      resolutions are its events. The effects of a render run right after
      the callback that caused it, before the next event. The props are the
      same at every render. The preload effect only creates an image
      element and writes to nothing the hook reads: it is left out. *)

From Stdlib Require Import ZArith QArith Qround Qminmax Lia List Floats.
From Stdlib.Strings Require Import Byte.
From stdpp Require Import base option list gmap strings pretty.

Local Open Scope Z_scope.

(** ** JavaScript numbers and the built-ins the source calls *)

Module JS.

(** [data[i]] of a [Uint8ClampedArray] as a Number. *)
Definition of_byte (b : byte) : float :=
  PrimFloat.of_uint63 (Uint63.of_Z (Z.of_N (Byte.to_N b))).

(** A read past the end of the array is [undefined], and
    [ToNumber(undefined)] is [NaN]. *)
Definition ToNumber (x : option byte) : float :=
  match x with
  | Some b => of_byte b
  | None => nan
  end.

(** [Math.min] and [Math.max]: [NaN] is contagious and [-0 < +0]. *)
Definition Math_min (a b : float) : float :=
  if is_nan a || is_nan b then nan
  else if (a <? b)%float then a
  else if (b <? a)%float then b
  else if get_sign a then a else b.

Definition Math_max (a b : float) : float :=
  if is_nan a || is_nan b then nan
  else if (a <? b)%float then b
  else if (b <? a)%float then a
  else if get_sign a then b else a.

(** The values [Math.round] returns: [NaN], an infinity or an integer
    ([-0] is kept as [0]: both print as ["0"]). *)
Inductive integral : Set :=
| NaN
| Infinity (negative : bool)
| Int (z : Z).

(** [Math.round x] is [floor (x + 1/2)], computed exactly on the
    mantissa and exponent of [x] (a tie goes towards [+∞]). *)
Definition Math_round (x : float) : integral :=
  match Prim2SF x with
  | S754_nan => NaN
  | S754_infinity s => Infinity s
  | S754_zero _ => Int 0
  | S754_finite s m e =>
      let n := if s then Z.neg m else Z.pos m in
      if 0 <=? e then Int (n * 2 ^ e)
      else Int ((2 * n + 2 ^ (- e)) / 2 ^ (1 - e))
  end.

(** [Number::toString] of a [Math.round] result, as the template literal
    of [toRgbTripletString] applies it. Integers are printed in decimal,
    which is what ECMAScript does below [1e21]; the hook only formats
    numbers that went through [clamp _ 0 255], and those round to an
    integer from 0 to 255 (lemma [round_clamp_range]). *)
Definition Number_toString (n : integral) : string :=
  match n with
  | NaN => "NaN"
  | Infinity false => "Infinity"
  | Infinity true => "-Infinity"
  | Int z => pretty z
  end.

(** Outcome of a promise. *)
Inductive settled (A E : Type) : Type :=
| Fulfilled (v : A)
| Rejected (e : E).
Global Arguments Fulfilled {A E} v.
Global Arguments Rejected {A E} e.

End JS.

(** ** The colour helpers *)

Definition triplet : Set := float * float * float.

(** [clamp(value, min, max)] *)
Definition clamp (value min max : float) : float :=
  JS.Math_max min (JS.Math_min max value).

(** [toRgbTripletString(r, g, b)] *)
Definition toRgbTripletString (r g b : float) : string :=
  JS.Number_toString (JS.Math_round r) +:+ " " +:+
  JS.Number_toString (JS.Math_round g) +:+ " " +:+
  JS.Number_toString (JS.Math_round b).

(** The local [lighten] of [deriveSecondaryFromPrimary]. *)
Definition lighten (c : float) : float :=
  clamp (c * 1.25 + 20)%float 0%float 255%float.

(** [deriveSecondaryFromPrimary(r, g, b)] *)
Definition deriveSecondaryFromPrimary (r g b : float) : string :=
  toRgbTripletString (lighten r) (lighten g) (lighten b).

(** The local [boost] of the accent effect. *)
Definition boost (c : float) : float :=
  clamp (c * 1.05)%float 0%float 255%float.

(** ** The accent colour extractor *)

(** What the platform can do to the code of [img.onload]: [getContext]
    may return [null]; [getContext], [drawImage] and [getImageData] may
    throw (a tainted canvas, for one); otherwise [getImageData] returns
    the pixel bytes. *)
Inductive exn : Set := DOMException (name : string).

Definition try (A : Type) : Type := exn + A.

Definition ret {A} (a : A) : try A := inr a.
Definition throw {A} (e : exn) : try A := inl e.
Definition bind {A B} (m : try A) (k : A -> try B) : try B :=
  match m with
  | inl e => inl e
  | inr a => k a
  end.

Notation "'do' x <- m ; k" := (bind m (fun x => k))
  (at level 10, x name, m at level 100, k at level 200).

Record Context2D := {
  drawImage : try unit;
  getImageData : try (list byte)
}.

Record Canvas := {
  getContext : try (option Context2D)
}.

(** The event the image element fires after [img.src = url]. *)
Inductive ImageEvent :=
| onload (canvas : Canvas)
| onerror.

Definition fallback : triplet := (85, 37, 131)%float.

(** The four accumulators of the sampling loop. *)
Record Sums : Set := {
  sum_r : float;
  sum_g : float;
  sum_b : float;
  count : float
}.

Definition no_sums : Sums :=
  {| sum_r := 0; sum_g := 0; sum_b := 0; count := 0 |}.

(** One iteration of the loop over the pixel at [i]: [d0 .. d3] are
    [data[i] .. data[i + 3]]. *)
Definition sample_pixel (d0 d1 d2 d3 : option byte) (acc : Sums) : Sums :=
  let alpha := (JS.ToNumber d3 / 255)%float in
  if (alpha <? 0.1)%float then acc
  else {| sum_r := sum_r acc + JS.ToNumber d0;
          sum_g := sum_g acc + JS.ToNumber d1;
          sum_b := sum_b acc + JS.ToNumber d2;
          count := count acc + 1 |}%float.

(** [for (let i = 0; i < data.length; i += 4)], by recursion on what is
    left of [data] from [i] on. A last pixel that is cut short reads its
    missing bytes as [undefined]. *)
Fixpoint sample_loop (data : list byte) (acc : Sums) : Sums :=
  match data with
  | [] => acc
  | d0 :: rest0 =>
      match rest0 with
      | d1 :: d2 :: d3 :: rest =>
          sample_loop rest (sample_pixel (Some d0) (Some d1) (Some d2) (Some d3) acc)
      | _ =>
          sample_pixel (Some d0) (rest0 !! 0%nat) (rest0 !! 1%nat) None acc
      end
  end.

(** The body of the [try] block of [img.onload]; its value is what is
    passed to [resolve]. *)
Definition onload_try (canvas : Canvas) : try triplet :=
  do ctx <- getContext canvas;
  match ctx with
  | None => ret fallback
  | Some ctx =>
      do _drawn <- drawImage ctx;
      do data <- getImageData ctx;
      let acc := sample_loop data no_sums in
      if (count acc =? 0)%float then ret fallback
      else ret (sum_r acc / count acc, sum_g acc / count acc, sum_b acc / count acc)%float
  end.

(** [try { ... } catch { resolve([85, 37, 131]) }] *)
Definition onload_handler (canvas : Canvas) : triplet :=
  match onload_try canvas with
  | inr t => t
  | inl _ => fallback
  end.

(** [computeAverageColor(url)]: the promise settles when the image element
    fires its event; every handler calls [resolve], none calls [reject]. *)
Definition computeAverageColor (url : string) (ev : ImageEvent) : JS.settled triplet exn :=
  match ev with
  | onload canvas => JS.Fulfilled (onload_handler canvas)
  | onerror => JS.Fulfilled fallback
  end.

(** The [then] callback of the accent effect, once [cancelled] was found
    false: the pair of strings it publishes. *)
Definition accent_of (t : triplet) : string * string :=
  let '(r, g, b) := t in
  let pr := boost r in
  let pg := boost g in
  let pb := boost b in
  (toRgbTripletString pr pg pb, deriveSecondaryFromPrimary pr pg pb).

(** ** The world of the hook *)

(** The two closures the hook hands to the window. The callback of
    [setInterval] is closed over the [index] of the render that ran the
    cycle effect; the callback of [setTimeout] is [() => setIsFading(false)]. *)
Inductive Timer : Set :=
| interval (due delay : Z) (index : Z)
| timeout (due : Z).

(** One run of the accent effect with a truthy [currentUrl]: the image it
    samples, its own [cancelled] variable, and whether the promise of
    [computeAverageColor] is still pending. *)
Record Sample : Set := {
  sample_url : string;
  cancelled : bool;
  pending : bool
}.

(** The [useState] cells, the two [useRef] cells, the clock and timer table
    of the window, the samples in flight, and the cleanup the accent effect
    returned last (it sets the [cancelled] of that sample). *)
Record World : Type := {
  index : Z;
  previousIndex : option Z;
  isFading : bool;
  accentPrimaryRgb : string;
  accentSecondaryRgb : string;
  timerRef : option Z;
  fadeRef : option Z;
  now : Z;
  nextHandle : Z;
  timers : gmap Z Timer;
  samples : list Sample;
  accentCleanup : option nat
}.

Definition put_index (x : Z) (w : World) : World :=
  {| index := x;
     previousIndex := previousIndex w;
     isFading := isFading w;
     accentPrimaryRgb := accentPrimaryRgb w;
     accentSecondaryRgb := accentSecondaryRgb w;
     timerRef := timerRef w;
     fadeRef := fadeRef w;
     now := now w;
     nextHandle := nextHandle w;
     timers := timers w;
     samples := samples w;
     accentCleanup := accentCleanup w |}.

Definition setPreviousIndex (x : option Z) (w : World) : World :=
  {| index := index w;
     previousIndex := x;
     isFading := isFading w;
     accentPrimaryRgb := accentPrimaryRgb w;
     accentSecondaryRgb := accentSecondaryRgb w;
     timerRef := timerRef w;
     fadeRef := fadeRef w;
     now := now w;
     nextHandle := nextHandle w;
     timers := timers w;
     samples := samples w;
     accentCleanup := accentCleanup w |}.

Definition setIsFading (x : bool) (w : World) : World :=
  {| index := index w;
     previousIndex := previousIndex w;
     isFading := x;
     accentPrimaryRgb := accentPrimaryRgb w;
     accentSecondaryRgb := accentSecondaryRgb w;
     timerRef := timerRef w;
     fadeRef := fadeRef w;
     now := now w;
     nextHandle := nextHandle w;
     timers := timers w;
     samples := samples w;
     accentCleanup := accentCleanup w |}.

Definition setAccentPrimaryRgb (x : string) (w : World) : World :=
  {| index := index w;
     previousIndex := previousIndex w;
     isFading := isFading w;
     accentPrimaryRgb := x;
     accentSecondaryRgb := accentSecondaryRgb w;
     timerRef := timerRef w;
     fadeRef := fadeRef w;
     now := now w;
     nextHandle := nextHandle w;
     timers := timers w;
     samples := samples w;
     accentCleanup := accentCleanup w |}.

Definition setAccentSecondaryRgb (x : string) (w : World) : World :=
  {| index := index w;
     previousIndex := previousIndex w;
     isFading := isFading w;
     accentPrimaryRgb := accentPrimaryRgb w;
     accentSecondaryRgb := x;
     timerRef := timerRef w;
     fadeRef := fadeRef w;
     now := now w;
     nextHandle := nextHandle w;
     timers := timers w;
     samples := samples w;
     accentCleanup := accentCleanup w |}.

Definition set_timerRef (x : option Z) (w : World) : World :=
  {| index := index w;
     previousIndex := previousIndex w;
     isFading := isFading w;
     accentPrimaryRgb := accentPrimaryRgb w;
     accentSecondaryRgb := accentSecondaryRgb w;
     timerRef := x;
     fadeRef := fadeRef w;
     now := now w;
     nextHandle := nextHandle w;
     timers := timers w;
     samples := samples w;
     accentCleanup := accentCleanup w |}.

Definition set_fadeRef (x : option Z) (w : World) : World :=
  {| index := index w;
     previousIndex := previousIndex w;
     isFading := isFading w;
     accentPrimaryRgb := accentPrimaryRgb w;
     accentSecondaryRgb := accentSecondaryRgb w;
     timerRef := timerRef w;
     fadeRef := x;
     now := now w;
     nextHandle := nextHandle w;
     timers := timers w;
     samples := samples w;
     accentCleanup := accentCleanup w |}.

Definition set_now (x : Z) (w : World) : World :=
  {| index := index w;
     previousIndex := previousIndex w;
     isFading := isFading w;
     accentPrimaryRgb := accentPrimaryRgb w;
     accentSecondaryRgb := accentSecondaryRgb w;
     timerRef := timerRef w;
     fadeRef := fadeRef w;
     now := x;
     nextHandle := nextHandle w;
     timers := timers w;
     samples := samples w;
     accentCleanup := accentCleanup w |}.

Definition set_nextHandle (x : Z) (w : World) : World :=
  {| index := index w;
     previousIndex := previousIndex w;
     isFading := isFading w;
     accentPrimaryRgb := accentPrimaryRgb w;
     accentSecondaryRgb := accentSecondaryRgb w;
     timerRef := timerRef w;
     fadeRef := fadeRef w;
     now := now w;
     nextHandle := x;
     timers := timers w;
     samples := samples w;
     accentCleanup := accentCleanup w |}.

Definition set_timers (x : gmap Z Timer) (w : World) : World :=
  {| index := index w;
     previousIndex := previousIndex w;
     isFading := isFading w;
     accentPrimaryRgb := accentPrimaryRgb w;
     accentSecondaryRgb := accentSecondaryRgb w;
     timerRef := timerRef w;
     fadeRef := fadeRef w;
     now := now w;
     nextHandle := nextHandle w;
     timers := x;
     samples := samples w;
     accentCleanup := accentCleanup w |}.

Definition set_samples (x : list Sample) (w : World) : World :=
  {| index := index w;
     previousIndex := previousIndex w;
     isFading := isFading w;
     accentPrimaryRgb := accentPrimaryRgb w;
     accentSecondaryRgb := accentSecondaryRgb w;
     timerRef := timerRef w;
     fadeRef := fadeRef w;
     now := now w;
     nextHandle := nextHandle w;
     timers := timers w;
     samples := x;
     accentCleanup := accentCleanup w |}.

Definition set_accentCleanup (x : option nat) (w : World) : World :=
  {| index := index w;
     previousIndex := previousIndex w;
     isFading := isFading w;
     accentPrimaryRgb := accentPrimaryRgb w;
     accentSecondaryRgb := accentSecondaryRgb w;
     timerRef := timerRef w;
     fadeRef := fadeRef w;
     now := now w;
     nextHandle := nextHandle w;
     timers := timers w;
     samples := samples w;
     accentCleanup := x |}.

(** [setIndex] called with an updater function. *)
Definition setIndex (f : Z -> Z) (w : World) : World :=
  put_index (f (index w)) w.

(** *** Window timers *)

(** [if (ref.current)]: [null] and the handle [0] are falsy. *)
Definition truthy (ref : option Z) : bool :=
  match ref with
  | Some h => negb (h =? 0)
  | None => false
  end.

(** [window.setInterval(callback, delay)], for the callback closed over
    [index]; a negative delay counts as [0]. *)
Definition setInterval (index delay : Z) (w : World) : Z * World :=
  let h := nextHandle w in
  (h, set_nextHandle (h + 1)
        (set_timers (<[h := interval (now w + Z.max 0 delay) delay index]> (timers w)) w)).

(** [window.setTimeout(() => setIsFading(false), delay)] *)
Definition setTimeout (delay : Z) (w : World) : Z * World :=
  let h := nextHandle w in
  (h, set_nextHandle (h + 1)
        (set_timers (<[h := timeout (now w + Z.max 0 delay)]> (timers w)) w)).

(** [window.clearInterval] and [window.clearTimeout] share one pool of
    handles; clearing a handle that is not live does nothing. *)
Definition clearTimer (ref : option Z) (w : World) : World :=
  match ref with
  | Some h => set_timers (delete h (timers w)) w
  | None => w
  end.

Definition clearInterval := clearTimer.
Definition clearTimeout := clearTimer.

(** [array[i]] for a Number [i] that is an integer. *)
Definition js_nth {A} (l : list A) (i : Z) : option A :=
  if i <? 0 then None else l !! Z.to_nat i.

(** ** The hook *)

Record BackgroundCycleOptions : Set := {
  opt_intervalMs : option Z;
  opt_crossfadeMs : option Z
}.

(** What the image element of a sample may fire, and what the window may
    do: let time pass, or run a timer that is due. *)
Inductive Event :=
| Elapse (ms : Z)
| Tick (handle : Z)
| FadeClear (handle : Z)
| Settle (id : nat) (ev : ImageEvent).

Section useBackgroundCycle.

Variable imageUrls : list string.
Variable options : option BackgroundCycleOptions.

(** [const { intervalMs = 20000, crossfadeMs = 800 } = options || {}] *)
Definition intervalMs : Z := default 20000 (options ≫= opt_intervalMs).
Definition crossfadeMs : Z := default 800 (options ≫= opt_crossfadeMs).

(** [imageUrls.length] *)
Definition len : Z := Z.of_nat (length imageUrls).

(** The two [useMemo] values. *)
Definition currentUrl (w : World) : option string :=
  if 0 <? len then js_nth imageUrls (Z.rem (index w) len) else None.

Definition previousUrl (w : World) : option string :=
  match previousIndex w with
  | Some p => if 0 <? len then js_nth imageUrls (Z.rem p len) else None
  | None => None
  end.

(** The callback of [setInterval], closed over [index]. *)
Definition cycle_tick (index : Z) (w : World) : World :=
  let w := setPreviousIndex (Some index) w in
  let w := setIsFading true w in
  let w := setIndex (fun i => Z.rem (i + 1) (Z.max 1 len)) w in
  let w := if truthy (fadeRef w) then clearTimeout (fadeRef w) w else w in
  let '(h, w) := setTimeout crossfadeMs w in
  set_fadeRef (Some h) w.

(** The cycle effect, dependencies
    [[imageUrls.length, intervalMs, crossfadeMs, index]]. *)
Definition cycle_effect (w : World) : World :=
  let w := if truthy (timerRef w) then clearInterval (timerRef w) w else w in
  let '(h, w) := setInterval (index w) intervalMs w in
  set_timerRef (Some h) w.

Definition cycle_cleanup (w : World) : World :=
  let w := if truthy (timerRef w) then clearInterval (timerRef w) w else w in
  if truthy (fadeRef w) then clearTimeout (fadeRef w) w else w.

(** The accent effect, dependencies [[currentUrl]]. [!currentUrl] holds
    of [null] and of the empty string; the effect then returns no
    cleanup. Otherwise it starts a sample with a fresh [cancelled]. *)
Definition accent_effect (w : World) : World :=
  match currentUrl w with
  | None => set_accentCleanup None w
  | Some url =>
      if bool_decide (url = "") then set_accentCleanup None w
      else
        let id := length (samples w) in
        let s := {| sample_url := url; cancelled := false; pending := true |} in
        set_accentCleanup (Some id) (set_samples (samples w ++ [s]) w)
  end.

(** [() => { cancelled = true; }] of the sample the effect started. *)
Definition cancel (s : Sample) : Sample :=
  {| sample_url := sample_url s; cancelled := true; pending := pending s |}.

Definition accent_cleanup (w : World) : World :=
  match accentCleanup w with
  | Some id => set_samples (alter cancel id (samples w)) w
  | None => w
  end.

(** The [then] callback of sample [s], called with the triplet [t]. *)
Definition accent_then (s : Sample) (t : triplet) (w : World) : World :=
  if cancelled s then w
  else
    let '(primary, secondary) := accent_of t in
    let w := setAccentPrimaryRgb primary w in
    setAccentSecondaryRgb secondary w.

(** After a callback that ran on [before] left [w], React renders again
    and runs the effects whose dependencies changed: first their
    cleanups, then their bodies. The props do not change, so the cycle
    effect runs again exactly when [index] changed. *)
Definition commit (before w : World) : World :=
  let cycle_changed := negb (index before =? index w) in
  let accent_changed := negb (bool_decide (currentUrl before = currentUrl w)) in
  let w := if cycle_changed then cycle_cleanup w else w in
  let w := if accent_changed then accent_cleanup w else w in
  let w := if cycle_changed then cycle_effect w else w in
  if accent_changed then accent_effect w else w.

(** The first render and its effects. *)
Definition initial : World :=
  {| index := 0;
     previousIndex := None;
     isFading := false;
     accentPrimaryRgb := "85 37 131";
     accentSecondaryRgb := "253 185 39";
     timerRef := None;
     fadeRef := None;
     now := 0;
     nextHandle := 1;
     timers := ∅;
     samples := [];
     accentCleanup := None |}.

Definition mount : World := accent_effect (cycle_effect initial).

Definition settle (s : Sample) : Sample :=
  {| sample_url := sample_url s; cancelled := cancelled s; pending := false |}.

(** One event. [None] when the event cannot happen in [w]: a timer that
    is not live or not due yet, a sample that is not pending, time
    running backwards. *)
Definition step (e : Event) (w : World) : option World :=
  match e with
  | Elapse ms =>
      if ms <? 0 then None else Some (set_now (now w + ms) w)
  | Tick h =>
      match timers w !! h with
      | Some (interval due delay i) =>
          if due <=? now w then
            let w1 := set_timers (<[h := interval (now w + Z.max 0 delay) delay i]> (timers w)) w in
            Some (commit w (cycle_tick i w1))
          else None
      | _ => None
      end
  | FadeClear h =>
      match timers w !! h with
      | Some (timeout due) =>
          if due <=? now w then
            let w1 := set_timers (delete h (timers w)) w in
            Some (commit w (setIsFading false w1))
          else None
      | _ => None
      end
  | Settle id ev =>
      match samples w !! id with
      | Some s =>
          if pending s then
            let w1 := set_samples (<[id := settle s]> (samples w)) w in
            match computeAverageColor (sample_url s) ev with
            | JS.Fulfilled t => Some (commit w (accent_then s t w1))
            | JS.Rejected _ => Some w1
            end
          else None
      | None => None
      end
  end.

(** A run of events, oldest first. *)
Fixpoint run (evs : list Event) (w : World) : option World :=
  match evs with
  | [] => Some w
  | e :: evs => w' ← step e w; run evs w'
  end.

Definition is_tick (e : Event) : bool :=
  match e with
  | Tick _ => true
  | _ => false
  end.

(** The number of timer ticks of a run. *)
Definition ticks (evs : list Event) : nat := length (filter is_tick evs).

End useBackgroundCycle.

(** ** The properties, in the words of the specification *)




Definition byte_value (b : byte) : Z := Z.of_N (Byte.to_N b).


(** Every pixel of the buffer has an alpha below 10% of full opacity:
    [a / 255 < 1 / 10]. *)
Inductive all_transparent : list byte -> Prop :=
| transparent_nil : all_transparent []
| transparent_pixel r g b a rest :
    10 * byte_value a < 255 ->
    all_transparent rest ->
    all_transparent (r :: g :: b :: a :: rest).

(** A canvas that works and reads back [data]. *)
Definition canvas_of (data : list byte) : Canvas :=
  {| getContext := ret (Some {| drawImage := ret tt; getImageData := ret data |}) |}.

(** What holds of every world the hook can reach. *)
Record Inv (imageUrls : list string) (options : option BackgroundCycleOptions)
    (w : World) : Prop := {
  (** the index stays within the sequence (within one slot if it is empty) *)
  inv_index : 0 <= index w < Z.max 1 (len imageUrls);
  (** handles are positive and handed out in increasing order *)
  inv_handle : 0 < nextHandle w;
  inv_live : forall h t, timers w !! h = Some t -> 0 < h < nextHandle w;
  (** the cycle timer is live, and its callback has the current index *)
  inv_cycle : exists h due,
      timerRef w = Some h /\
      timers w !! h = Some (interval due (intervalMs options) (index w));
  (** no other interval and no timeout but the one in [fadeRef] is live *)
  inv_interval : forall h due delay i,
      timers w !! h = Some (interval due delay i) -> timerRef w = Some h;
  inv_timeout : forall h due,
      timers w !! h = Some (timeout due) -> fadeRef w = Some h;
  inv_refs : forall h, fadeRef w = Some h -> timerRef w <> Some h;
  (** the only sample that is not cancelled is the one of the effect that
      ran last, and it samples the current image *)
  inv_sample : forall id s,
      samples w !! id = Some s -> cancelled s = false ->
      accentCleanup w = Some id /\ currentUrl imageUrls w = Some (sample_url s);
  inv_cleanup : forall id,
      accentCleanup w = Some id ->
      exists s, samples w !! id = Some s /\ cancelled s = false
}.

(** The timer table after [if (ref.current) window.clearTimeout(ref.current)]. *)
Definition cleared (ref : option Z) (tm : gmap Z Timer) : gmap Z Timer :=
  match ref with
  | Some h => if h =? 0 then tm else delete h tm
  | None => tm
  end.

(** The two halves of [commit]: each effect with its own cleanup. *)
Definition cycle_sync (options : option BackgroundCycleOptions) (before w : World) : World :=
  if index before =? index w then w
  else cycle_effect options (cycle_cleanup w).

Definition accent_sync (imageUrls : list string) (before w : World) : World :=
  if bool_decide (currentUrl imageUrls before = currentUrl imageUrls w) then w
  else accent_effect imageUrls (accent_cleanup w).

(** The accent pair the hook returns. *)
Definition accent (w : World) : string * string :=
  (accentPrimaryRgb w, accentSecondaryRgb w).

(** "[previousIndex] is set only during an active transition": whenever the
    hook is not fading, the previous image reference it returns is absent. *)
Definition previous_only_while_fading
    (imageUrls : list string) (options : option BackgroundCycleOptions) : Prop :=
  forall evs w,
    run imageUrls options evs (mount imageUrls options) = Some w ->
    isFading w = false ->
    previousUrl imageUrls w = None.

(** ** Concrete runs *)

Definition no_images : list string := [].
Definition one_image : list string := ["a.jpg"].
Definition two_images : list string := ["a.jpg"; "b.jpg"].
Definition three_images : list string := ["a.jpg"; "b.jpg"; "c.jpg"].

(** Four ticks, each one interval after the effect set the timer up; with
    more than one image every tick replaces the interval (handles 1, 3, 5,
    7) and takes one more handle for the fade timeout. *)
Definition four_ticks : list Event :=
  [Elapse 20000; Tick 1; Elapse 20000; Tick 3; Elapse 20000; Tick 5;
   Elapse 20000; Tick 7].

(** One tick, then the fade timeout 800 ms later. *)
Definition tick_then_fade : list Event :=
  [Elapse 20000; Tick 1; Elapse 800; FadeClear 2].

(** One tick, then a long wait. *)
Definition tick_then_wait : list Event :=
  [Elapse 20000; Tick 1; Elapse 1000000].

(** An opaque red image. *)
Definition red_canvas : Canvas := canvas_of [xff; x00; x00; xff]%byte.

(** Twenty opaque pixels, nine of them with red 1: the mean red is 0.45. *)
Definition faint_red_canvas : Canvas :=
  canvas_of (concat (replicate 9 [x01; x00; x00; xff]%byte)
             ++ concat (replicate 11 [x00; x00; x00; xff]%byte)).

(** Twenty opaque black pixels. *)
Definition black_canvas : Canvas :=
  canvas_of (concat (replicate 20 [x00; x00; x00; xff]%byte)).

(** The sample of the second image fails to load; the sample of the first
    image, started before the tick, loads after that. *)
Definition late_arrival : list Event :=
  [Settle 1%nat onerror; Elapse 5; Settle 0%nat (onload red_canvas); Elapse 10].

Definition world_after (imageUrls : list string) (evs : list Event) : World :=
  default (initial) (run imageUrls None evs (mount imageUrls None)).

Definition two_before_tick : World :=
  Eval vm_compute in world_after two_images [Elapse 20000].

Definition two_after_tick : World :=
  Eval vm_compute in world_after two_images [Elapse 20000; Tick 1].

Definition two_after_late_arrival : World :=
  Eval vm_compute in world_after two_images ([Elapse 20000; Tick 1] ++ late_arrival).

Definition two_after_wait : World :=
  Eval vm_compute in world_after two_images tick_then_wait.

Definition three_after_four_ticks : World :=
  Eval vm_compute in world_after three_images four_ticks.

Definition one_after_fade : World :=
  Eval vm_compute in world_after one_image tick_then_fade.

Definition none_after_fade : World :=
  Eval vm_compute in world_after no_images tick_then_fade.

(** The time on the clock of the window at the end of a run that started at
    time [t], and the time of the latest tick of the run. *)
Definition elapsed (e : Event) : Z :=
  match e with
  | Elapse ms => ms
  | _ => 0
  end.

Fixpoint clock (evs : list Event) (t : Z) : Z :=
  match evs with
  | [] => t
  | e :: evs => clock evs (t + elapsed e)
  end.

Fixpoint latest_tick (evs : list Event) (t : Z) : option Z :=
  match evs with
  | [] => None
  | e :: evs =>
      match latest_tick evs (t + elapsed e) with
      | Some T => Some T
      | None => if is_tick e then Some t else None
      end
  end.

(** ** The rest of the hook *)

(** The preload effect, dependencies [[index, imageUrls]]: [None] when it
    returns at once (fewer than two images), otherwise what it assigns to
    [img.src], the element at [nextIdx]. *)
Definition preload (imageUrls : list string) (w : World) : option (option string) :=
  if len imageUrls <? 2 then None
  else
    let nextIdx := Z.rem (index w + 1) (len imageUrls) in
    Some (js_nth imageUrls nextIdx).

(** Unmounting the hook: React runs the cleanup of each effect that
    returned one, the cycle effect first. *)
Definition unmount (w : World) : World :=
  accent_cleanup (cycle_cleanup w).

(** [!currentUrl] *)
Definition falsy (url : option string) : Prop :=
  url = None \/ url = Some "".

(** The pixels of a buffer, four bytes each. *)
Definition pixel : Set := byte * byte * byte * byte.

Definition bytes_of (p : pixel) : list byte :=
  let '(r, g, b, a) := p in [r; g; b; a].

Definition buffer (px : list pixel) : list byte :=
  concat (map bytes_of px).

(** An alpha byte of 26 or more: [a / 255 < 0.1] is false. *)
Definition contributes (p : pixel) : bool :=
  let '(_, _, _, a) := p in 26 <=? byte_value a.

(** The 64 by 64 raster the hook draws into, filled with one pixel. *)
Definition uniform_raster (p : pixel) : list byte :=
  buffer (replicate (64 * 64) p).

(** [round(min(255, c * 1.05))] and [round(min(255, min(255, c * 1.05) *
    1.25 + 20))] for an integer [c >= 0], in exact arithmetic. *)
Definition primary_exact (c : Z) : Z := Z.min 255 ((21 * c + 10) / 20).
Definition secondary_exact (c : Z) : Z := Z.min 255 ((21 * c + 328) / 16).

(** [n] times [s => s + x], from [s]. *)
Fixpoint add_times (n : nat) (x s : float) : float :=
  match n with
  | O => s
  | S n => add_times n x (s + x)%float
  end.

(** A string of three channels, as [toRgbTripletString] builds it. *)
Definition triplet_string (c1 c2 c3 : JS.integral) : string :=
  JS.Number_toString c1 +:+ " " +:+ JS.Number_toString c2 +:+ " " +:+
  JS.Number_toString c3.


(** Concrete runs for the further properties of the hook. *)
Definition three_ticks_and_wait : list Event :=
  [Elapse 20000; Tick 1; Elapse 20000; Tick 3; Elapse 20000; Tick 5;
   Elapse 20000].



(** Both samples of [two_after_tick] settle after the unmount, and time
    passes. *)
Definition after_unmount : list Event :=
  [Settle 1%nat (onload red_canvas); Elapse 50000; Settle 0%nat onerror].

Definition two_after_unmount : World :=
  Eval vm_compute in
    default initial (run two_images None after_unmount (unmount two_after_tick)).
(** ** The colour pipeline *)

Lemma alpha_test (a : byte) :
  (JS.of_byte a / 255 <? 0.1)%float = bool_decide (10 * byte_value a < 255).
Proof. destruct a; vm_compute; reflexivity. Qed.

Lemma sample_pixel_transparent d0 d1 d2 a acc :
  10 * byte_value a < 255 ->
  sample_pixel d0 d1 d2 (Some a) acc = acc.
Proof.
  intros Ha. unfold sample_pixel. cbn [JS.ToNumber].
  rewrite alpha_test, bool_decide_eq_true_2 by exact Ha. reflexivity.
Qed.

Lemma sample_loop_transparent data :
  all_transparent data -> forall acc, sample_loop data acc = acc.
Proof.
  induction 1 as [|r g b a rest Ha _ IH]; intros acc; [reflexivity|].
  cbn [sample_loop]. rewrite sample_pixel_transparent by exact Ha. apply IH.
Qed.

(** C7. A sampled image whose pixels all have an alpha below 10% leaves the
    counter of contributing pixels at zero, and the sample resolves with the
    fallback triplet (85, 37, 131): no mean is divided by zero. *)
Theorem alpha_thresholding_safe (url : string) (data : list byte) :
  all_transparent data ->
  count (sample_loop data no_sums) = 0%float /\
  computeAverageColor url (onload (canvas_of data)) = JS.Fulfilled (85, 37, 131)%float.
Proof.
  intros Hdata. pose proof (sample_loop_transparent data Hdata no_sums) as Hloop.
  split; [rewrite Hloop; reflexivity|].
  unfold computeAverageColor, onload_handler, onload_try, canvas_of.
  cbn [getContext drawImage getImageData bind ret]. rewrite Hloop.
  reflexivity.
Qed.

Lemma alpha_thresholding_safe_witness :
  count (sample_loop [x10; x20; x30; x19; xff; xff; xff; x00]%byte no_sums) = 0%float /\
  computeAverageColor "a" (onload (canvas_of [x10; x20; x30; x19; xff; xff; xff; x00]%byte))
  = JS.Fulfilled (85, 37, 131)%float.
Proof.
  apply (alpha_thresholding_safe "a" [x10; x20; x30; x19; xff; xff; xff; x00]%byte).
  repeat (constructor; [vm_compute; reflexivity|]). constructor.
Defined.

(** C3. The promise of [computeAverageColor] is fulfilled whatever the image
    element and the canvas do: a load failure, a missing raster context and
    an exception thrown while sampling each resolve with the fallback
    triplet (85, 37, 131), and no path rejects. *)
Theorem extractor_never_fails (url : string) :
  (forall ev, exists t, computeAverageColor url ev = JS.Fulfilled t) /\
  computeAverageColor url onerror = JS.Fulfilled (85, 37, 131)%float /\
  computeAverageColor url (onload {| getContext := ret None |})
  = JS.Fulfilled (85, 37, 131)%float /\
  (forall e,
      computeAverageColor url (onload {| getContext := throw e |})
      = JS.Fulfilled (85, 37, 131)%float) /\
  (forall e read,
      computeAverageColor url
        (onload {| getContext := ret (Some {| drawImage := throw e; getImageData := read |}) |})
      = JS.Fulfilled (85, 37, 131)%float) /\
  (forall e draw,
      computeAverageColor url
        (onload {| getContext := ret (Some {| drawImage := draw; getImageData := throw e |}) |})
      = JS.Fulfilled (85, 37, 131)%float).
Proof.
  split; [intros [canvas|]; eexists; reflexivity|].
  do 4 (split; [reflexivity|]).
  intros e [x|[]]; reflexivity.
Qed.



(** The law reads the primary triplet before it is rounded for printing:
    two images that print the same primary can print different
    secondaries. *)
Example secondary_reads_unrounded_primary :
  computeAverageColor "a.jpg" (onload faint_red_canvas) = JS.Fulfilled (0.45, 0, 0)%float /\
  computeAverageColor "b.jpg" (onload black_canvas) = JS.Fulfilled (0, 0, 0)%float /\
  accent_of (0.45, 0, 0)%float = ("0 0 0", "21 20 20") /\
  accent_of (0, 0, 0)%float = ("0 0 0", "20 20 20").
Proof.
  split; [vm_compute; reflexivity|]. split; [vm_compute; reflexivity|].
  split; vm_compute; reflexivity.
Qed.

(** *** Published channels are bytes *)





(** *** Clamping *)

(** How a double compares with zero and with a positive bound. *)
Lemma SF_against_bounds (f : spec_float) (M : positive) (E : Z) :
  let z := S754_zero false in
  let b := S754_finite false M E in
  (SFltb f z = true ->
   SFeqb f f = true /\ SFltb z f = false /\ SFltb f b = true /\ SFltb b f = false) /\
  (SFltb b f = true ->
   SFeqb f f = true /\ SFltb f b = false /\ SFltb z f = true /\ SFltb f z = false) /\
  (SFltb z f = true -> SFltb f b = true ->
   SFeqb f f = true /\ SFltb b f = false /\ SFltb f z = false) /\
  (SFeqb f z = true ->
   SFeqb f f = true /\ SFltb z f = false /\ SFltb b f = false).
Proof.
  destruct f as [s|s| |s m e]; cbn zeta.
  1-3: try destruct s; repeat split; intros; try discriminate; reflexivity.
  unfold SFltb, SFeqb, SFcompare. rewrite Z.compare_refl.
  change (Pos.compare_cont Eq m m) with (Pos.compare m m).
  change (Pos.compare_cont Eq m M) with (Pos.compare m M).
  change (Pos.compare_cont Eq M m) with (Pos.compare M m).
  rewrite Pos.compare_refl.
  destruct s; [repeat split; intros; try discriminate; reflexivity|].
  destruct (Z.compare_spec e E), (Z.compare_spec E e); try lia;
    try (repeat split; intros; try discriminate; reflexivity).
  destruct (Pos.compare_spec m M), (Pos.compare_spec M m); try lia;
    repeat split; intros; try discriminate; reflexivity.
Qed.

Lemma float_against_bounds (x : float) :
  ((x <? 0)%float = true ->
   is_nan x = false /\ (0 <? x)%float = false /\
   (x <? 255)%float = true /\ (255 <? x)%float = false) /\
  ((255 <? x)%float = true ->
   is_nan x = false /\ (x <? 255)%float = false /\
   (0 <? x)%float = true /\ (x <? 0)%float = false) /\
  ((0 <? x)%float = true -> (x <? 255)%float = true ->
   is_nan x = false /\ (255 <? x)%float = false /\ (x <? 0)%float = false) /\
  ((x =? 0)%float = true ->
   is_nan x = false /\ (0 <? x)%float = false /\ (255 <? x)%float = false).
Proof.
  unfold is_nan. rewrite !ltb_spec, !FloatAxioms.eqb_spec.
  assert (H0 : Prim2SF 0 = S754_zero false) by reflexivity.
  assert (H255 : exists M E, Prim2SF 255 = S754_finite false M E)
    by (eexists _, _; reflexivity).
  destruct H255 as (M & E & H255). rewrite H0, H255.
  destruct (SF_against_bounds (Prim2SF x) M E) as (Ha & Hb & Hc & Hd).
  split; [|split; [|split]].
  - intros H. apply Ha in H as (-> & ? & ? & ?). done.
  - intros H. apply Hb in H as (-> & ? & ? & ?). done.
  - intros H1 H2. destruct (Hc H1 H2) as (-> & ? & ?). done.
  - intros H. apply Hd in H as (-> & ? & ?). done.
Qed.

(** X1. [clamp(x, 0, 255)] on every double: [NaN] stays [NaN]; anything
    below 0, [-Infinity] included, gives 0; anything above 255, [Infinity]
    included, gives 255; a zero of either sign gives [+0]; and a value
    strictly between the bounds is returned as it is. *)
Theorem clamp_saturates (x : float) :
  (is_nan x = true -> clamp x 0 255 = nan) /\
  ((x <? 0)%float = true -> clamp x 0 255 = 0%float) /\
  ((255 <? x)%float = true -> clamp x 0 255 = 255%float) /\
  ((x =? 0)%float = true -> clamp x 0 255 = 0%float) /\
  ((0 <? x)%float = true -> (x <? 255)%float = true -> clamp x 0 255 = x).
Proof.
  destruct (float_against_bounds x) as (Ha & Hb & Hc & Hd).
  unfold clamp, JS.Math_min, JS.Math_max.
  change (is_nan 255) with false. change (is_nan 0) with false.
  change (get_sign 255) with false. change (get_sign 0) with false. cbn [orb].
  split; [|split; [|split; [|split]]].
  - intros ->. reflexivity.
  - intros H. destruct (Ha H) as (Hn & H1 & H2 & H3). rewrite Hn, H3, H2, Hn, H1, H.
    reflexivity.
  - intros H. destruct (Hb H) as (Hn & H1 & H2 & H3). rewrite Hn, H. reflexivity.
  - intros H. destruct (Hd H) as (Hn & H1 & H2). rewrite Hn, H2.
    destruct (x <? 255)%float; rewrite Hn, H1; destruct (x <? 0)%float; reflexivity.
  - intros H1 H2. destruct (Hc H1 H2) as (Hn & H3 & H4). rewrite Hn, H3, H2, Hn, H1.
    reflexivity.
Qed.

Lemma clamp_saturates_witness :
  clamp (-3) 0 255 = 0%float /\ clamp infinity 0 255 = 255%float /\
  clamp (-0) 0 255 = 0%float /\ clamp 17.5 0 255 = 17.5%float.
Proof.
  destruct (clamp_saturates (-3)) as (_ & Hlow & _).
  destruct (clamp_saturates infinity) as (_ & _ & Hhigh & _).
  destruct (clamp_saturates (-0)) as (_ & _ & _ & Hzero & _).
  destruct (clamp_saturates 17.5) as (_ & _ & _ & _ & Hmid).
  split; [apply Hlow; reflexivity|]. split; [apply Hhigh; reflexivity|].
  split; [apply Hzero; reflexivity|]. apply Hmid; reflexivity.
Defined.


(** *** Sampling *)

Lemma contributes_alpha r g b a :
  (JS.of_byte a / 255 <? 0.1)%float = negb (contributes (r, g, b, a)).
Proof. destruct a; vm_compute; reflexivity. Qed.

Lemma sample_loop_pixel r g b a px acc :
  sample_loop (buffer ((r, g, b, a) :: px)) acc
  = sample_loop (buffer px)
      (if contributes (r, g, b, a)
       then {| sum_r := sum_r acc + JS.of_byte r;
               sum_g := sum_g acc + JS.of_byte g;
               sum_b := sum_b acc + JS.of_byte b;
               count := count acc + 1 |}%float
       else acc).
Proof.
  unfold buffer. cbn [map concat bytes_of app sample_loop]. f_equal.
  unfold sample_pixel. cbn [JS.ToNumber]. rewrite (contributes_alpha r g b a).
  destruct (contributes (r, g, b, a)); reflexivity.
Qed.


Lemma sample_loop_replicate n r g b a acc :
  contributes (r, g, b, a) = true ->
  sample_loop (buffer (replicate n (r, g, b, a))) acc
  = {| sum_r := add_times n (JS.of_byte r) (sum_r acc);
       sum_g := add_times n (JS.of_byte g) (sum_g acc);
       sum_b := add_times n (JS.of_byte b) (sum_b acc);
       count := add_times n 1 (count acc) |}.
Proof.
  intros Hc. revert acc. induction n as [|n IH]; intros acc.
  - destruct acc; reflexivity.
  - cbn [replicate]. rewrite sample_loop_pixel, Hc, IH. reflexivity.
Qed.

Lemma mean_of_raster (c : byte) :
  (add_times (64 * 64) (JS.of_byte c) 0 / add_times (64 * 64) 1 0)%float = JS.of_byte c.
Proof. destruct c; vm_compute; reflexivity. Qed.

(** X3. A 64 by 64 raster filled with one colour, with an alpha byte of 26 or
    more, samples to exactly that colour: the 4096 additions and the
    division are exact on doubles for every byte value. *)
Theorem uniform_raster_samples (url : string) (r g b a : byte) :
  contributes (r, g, b, a) = true ->
  computeAverageColor url (onload (canvas_of (uniform_raster (r, g, b, a))))
  = JS.Fulfilled (JS.of_byte r, JS.of_byte g, JS.of_byte b).
Proof.
  intros Hc. unfold computeAverageColor, onload_handler, onload_try, canvas_of.
  cbn [getContext drawImage getImageData bind ret]. unfold uniform_raster.
  rewrite (sample_loop_replicate _ _ _ _ _ _ Hc). cbn [count sum_r sum_g sum_b no_sums].
  assert (Hn : (add_times (64 * 64) 1 0 =? 0)%float = false) by (vm_compute; reflexivity).
  rewrite Hn, !mean_of_raster. reflexivity.
Qed.

Lemma uniform_raster_samples_witness :
  computeAverageColor "a.jpg" (onload (canvas_of (uniform_raster (x55, x25, x83, x1a)%byte)))
  = JS.Fulfilled (85, 37, 131)%float.
Proof.
  apply (uniform_raster_samples "a.jpg" x55 x25 x83 x1a). reflexivity.
Defined.

Lemma boost_byte_exact (c : byte) :
  JS.Math_round (boost (JS.of_byte c)) = JS.Int (primary_exact (byte_value c)) /\
  JS.Math_round (lighten (boost (JS.of_byte c))) = JS.Int (secondary_exact (byte_value c)).
Proof. destruct c; vm_compute; split; reflexivity. Qed.

(** X4. For a sampled triplet of integers from 0 to 255 the doubles agree
    with exact arithmetic all the way to the strings: a primary channel is
    min(255, floor((21 c + 10) / 20)), and a secondary channel is
    min(255, floor((21 c + 328) / 16)): at least 20, and never below the
    primary. *)
Theorem accent_of_bytes (r g b : byte) :
  accent_of (JS.of_byte r, JS.of_byte g, JS.of_byte b)
  = (triplet_string (JS.Int (primary_exact (byte_value r)))
       (JS.Int (primary_exact (byte_value g)))
       (JS.Int (primary_exact (byte_value b))),
     triplet_string (JS.Int (secondary_exact (byte_value r)))
       (JS.Int (secondary_exact (byte_value g)))
       (JS.Int (secondary_exact (byte_value b)))) /\
  (forall c : byte,
      20 <= secondary_exact (byte_value c) /\
      primary_exact (byte_value c) <= secondary_exact (byte_value c)).
Proof.
  split.
  - unfold accent_of, deriveSecondaryFromPrimary, toRgbTripletString, triplet_string.
    destruct (boost_byte_exact r) as [-> ->], (boost_byte_exact g) as [-> ->],
      (boost_byte_exact b) as [-> ->]. reflexivity.
  - intros c. destruct c; vm_compute; split; discriminate.
Qed.

(** ** The hook as a state machine *)

Section Invariants.

Variable imageUrls : list string.
Variable options : option BackgroundCycleOptions.

Local Abbreviation currentUrl := (currentUrl imageUrls).
Local Abbreviation commit := (commit imageUrls options).
Local Abbreviation cycle_tick := (cycle_tick imageUrls options).
Local Abbreviation cycle_effect := (cycle_effect options).
Local Abbreviation accent_effect := (accent_effect imageUrls).
Local Abbreviation step := (step imageUrls options).
Local Abbreviation run := (run imageUrls options).
Local Abbreviation mount := (mount imageUrls options).
Local Abbreviation Inv := (Inv imageUrls options).
Local Abbreviation len := (len imageUrls).

Ltac world :=
  cbn [index previousIndex isFading accentPrimaryRgb accentSecondaryRgb
       timerRef fadeRef now nextHandle timers samples accentCleanup
       put_index setPreviousIndex setIsFading setAccentPrimaryRgb
       setAccentSecondaryRgb set_timerRef set_fadeRef set_now set_nextHandle
       set_timers set_samples set_accentCleanup setIndex
       truthy clearTimer clearInterval clearTimeout setInterval setTimeout] in *.

Lemma currentUrl_index w1 w2 :
  index w1 = index w2 -> currentUrl w1 = currentUrl w2.
Proof. unfold currentUrl. intros ->. reflexivity. Qed.

(** Nothing runs when no dependency changed. *)
Lemma commit_same before w :
  index before = index w -> commit before w = w.
Proof.
  intros Hi. unfold commit.
  rewrite (currentUrl_index _ _ Hi), Hi, Z.eqb_refl, bool_decide_eq_true_2 by reflexivity.
  reflexivity.
Qed.


(** *** The callbacks in normal form *)

Lemma guarded_clear ref w :
  (if truthy ref then clearTimer ref w else w) = set_timers (cleared ref (timers w)) w.
Proof. destruct w, ref as [h|]; cbn; [destruct (h =? 0)|]; reflexivity. Qed.

Lemma cycle_tick_eq i w :
  cycle_tick i w
  = set_fadeRef (Some (nextHandle w))
      (set_nextHandle (nextHandle w + 1)
         (set_timers
            (<[nextHandle w := timeout (now w + Z.max 0 (crossfadeMs options))]>
               (cleared (fadeRef w) (timers w)))
            (put_index (Z.rem (index w + 1) (Z.max 1 len))
               (setIsFading true (setPreviousIndex (Some i) w))))).
Proof.
  unfold cycle_tick, clearTimeout. rewrite guarded_clear. reflexivity.
Qed.

Lemma cycle_cleanup_eq w :
  cycle_cleanup w
  = set_timers (cleared (fadeRef w) (cleared (timerRef w) (timers w))) w.
Proof.
  unfold cycle_cleanup, clearTimeout, clearInterval. rewrite !guarded_clear.
  destruct w; reflexivity.
Qed.

Lemma cycle_effect_eq w :
  cycle_effect w
  = set_timerRef (Some (nextHandle w))
      (set_nextHandle (nextHandle w + 1)
         (set_timers
            (<[nextHandle w := interval (now w + Z.max 0 (intervalMs options))
                                 (intervalMs options) (index w)]>
               (cleared (timerRef w) (timers w)))
            w)).
Proof.
  unfold cycle_effect, clearInterval. rewrite guarded_clear. reflexivity.
Qed.

Lemma commit_eq before w :
  commit before w = accent_sync imageUrls before (cycle_sync options before w).
Proof.
  unfold commit, accent_sync, cycle_sync.
  destruct (index before =? index w); cbn [negb].
  { destruct (bool_decide _); reflexivity. }
  rewrite (currentUrl_index (cycle_effect (cycle_cleanup w)) w)
    by (rewrite cycle_effect_eq, cycle_cleanup_eq; reflexivity).
  destruct (bool_decide _); cbn [negb]; [reflexivity|].
  f_equal. rewrite !cycle_effect_eq. unfold accent_cleanup.
  generalize (cycle_cleanup w). intros [? ? ? ? ? ? ? ? ? ? ? [id|]]; reflexivity.
Qed.

(** *** What the effects leave alone *)

Ltac accent_frame :=
  intros; unfold accent_sync, accent_effect, accent_cleanup;
  repeat case_match; reflexivity.

Ltac cycle_frame :=
  intros; unfold cycle_sync; case_match; [reflexivity|];
  rewrite cycle_effect_eq, cycle_cleanup_eq; reflexivity.

Lemma index_accent_sync b w :
  index (accent_sync imageUrls b w) = index w.
Proof. accent_frame. Qed.

Lemma previousIndex_accent_sync b w :
  previousIndex (accent_sync imageUrls b w) = previousIndex w.
Proof. accent_frame. Qed.

Lemma isFading_accent_sync b w :
  isFading (accent_sync imageUrls b w) = isFading w.
Proof. accent_frame. Qed.

Lemma accentPrimaryRgb_accent_sync b w :
  accentPrimaryRgb (accent_sync imageUrls b w) = accentPrimaryRgb w.
Proof. accent_frame. Qed.

Lemma accentSecondaryRgb_accent_sync b w :
  accentSecondaryRgb (accent_sync imageUrls b w) = accentSecondaryRgb w.
Proof. accent_frame. Qed.

Lemma timerRef_accent_sync b w :
  timerRef (accent_sync imageUrls b w) = timerRef w.
Proof. accent_frame. Qed.

Lemma fadeRef_accent_sync b w :
  fadeRef (accent_sync imageUrls b w) = fadeRef w.
Proof. accent_frame. Qed.

Lemma now_accent_sync b w :
  now (accent_sync imageUrls b w) = now w.
Proof. accent_frame. Qed.

Lemma nextHandle_accent_sync b w :
  nextHandle (accent_sync imageUrls b w) = nextHandle w.
Proof. accent_frame. Qed.

Lemma timers_accent_sync b w :
  timers (accent_sync imageUrls b w) = timers w.
Proof. accent_frame. Qed.

Lemma index_cycle_sync b w :
  index (cycle_sync options b w) = index w.
Proof. cycle_frame. Qed.

Lemma previousIndex_cycle_sync b w :
  previousIndex (cycle_sync options b w) = previousIndex w.
Proof. cycle_frame. Qed.

Lemma isFading_cycle_sync b w :
  isFading (cycle_sync options b w) = isFading w.
Proof. cycle_frame. Qed.

Lemma accentPrimaryRgb_cycle_sync b w :
  accentPrimaryRgb (cycle_sync options b w) = accentPrimaryRgb w.
Proof. cycle_frame. Qed.

Lemma accentSecondaryRgb_cycle_sync b w :
  accentSecondaryRgb (cycle_sync options b w) = accentSecondaryRgb w.
Proof. cycle_frame. Qed.

Lemma fadeRef_cycle_sync b w :
  fadeRef (cycle_sync options b w) = fadeRef w.
Proof. cycle_frame. Qed.

Lemma now_cycle_sync b w :
  now (cycle_sync options b w) = now w.
Proof. cycle_frame. Qed.

Lemma samples_cycle_sync b w :
  samples (cycle_sync options b w) = samples w.
Proof. cycle_frame. Qed.

Lemma accentCleanup_cycle_sync b w :
  accentCleanup (cycle_sync options b w) = accentCleanup w.
Proof. cycle_frame. Qed.

Create Rewrite HintDb frame.
Hint Rewrite index_accent_sync previousIndex_accent_sync isFading_accent_sync
  accentPrimaryRgb_accent_sync accentSecondaryRgb_accent_sync
  timerRef_accent_sync fadeRef_accent_sync now_accent_sync
  nextHandle_accent_sync timers_accent_sync index_cycle_sync
  previousIndex_cycle_sync isFading_cycle_sync accentPrimaryRgb_cycle_sync
  accentSecondaryRgb_cycle_sync fadeRef_cycle_sync now_cycle_sync
  samples_cycle_sync accentCleanup_cycle_sync : frame.

Lemma currentUrl_cycle_sync b w :
  currentUrl (cycle_sync options b w) = currentUrl w.
Proof. apply currentUrl_index, index_cycle_sync. Qed.

Lemma currentUrl_accent_sync b w :
  currentUrl (accent_sync imageUrls b w) = currentUrl w.
Proof. apply currentUrl_index, index_accent_sync. Qed.

(** *** The timer table *)

Lemma lookup_cleared_Some ref (tm : gmap Z Timer) h t :
  cleared ref tm !! h = Some t <->
  tm !! h = Some t /\ (h = 0 \/ ref <> Some h).
Proof.
  unfold cleared. destruct ref as [h'|]; [destruct (Z.eqb_spec h' 0)|].
  - subst. split; [intros ?; split; [done|]|tauto].
    destruct (decide (h = 0)); [tauto|right; congruence].
  - rewrite lookup_delete_Some. split.
    + intros [? ?]. split; [done|right; congruence].
    + intros [? [->|?]]; split; congruence.
  - split; [intros ?; split; [done|right; congruence]|tauto].
Qed.

Lemma accent_then_eq s t w :
  accent_then s t w
  = if cancelled s then w
    else setAccentSecondaryRgb (snd (accent_of t))
           (setAccentPrimaryRgb (fst (accent_of t)) w).
Proof.
  unfold accent_then. destruct (cancelled s); [reflexivity|].
  destruct (accent_of t); reflexivity.
Qed.

(** *** Reading a step backwards *)

Lemma computeAverageColor_fulfilled url ev :
  exists t, computeAverageColor url ev = JS.Fulfilled t.
Proof. destruct ev; eexists; reflexivity. Qed.

Lemma step_tick_inv h w w' :
  step (Tick h) w = Some w' ->
  exists due delay i,
    timers w !! h = Some (interval due delay i) /\ due <= now w /\
    w' = commit w (cycle_tick i
           (set_timers (<[h:=interval (now w + Z.max 0 delay) delay i]> (timers w)) w)).
Proof.
  unfold step. destruct (timers w !! h) as [[due delay i|]|]; try discriminate.
  destruct (Z.leb_spec due (now w)); [|discriminate].
  intros [= <-]. eauto 6.
Qed.

Lemma step_fade_inv h w w' :
  step (FadeClear h) w = Some w' ->
  exists due,
    timers w !! h = Some (timeout due) /\ due <= now w /\
    w' = setIsFading false (set_timers (delete h (timers w)) w).
Proof.
  unfold step. destruct (timers w !! h) as [[|due]|]; try discriminate.
  destruct (Z.leb_spec due (now w)); [|discriminate].
  intros [= <-]. rewrite commit_same by reflexivity. eauto.
Qed.

Lemma step_settle_inv id ev w w' :
  step (Settle id ev) w = Some w' ->
  exists s t,
    samples w !! id = Some s /\ pending s = true /\
    computeAverageColor (sample_url s) ev = JS.Fulfilled t /\
    w' = accent_then s t (set_samples (<[id:=settle s]> (samples w)) w).
Proof.
  unfold step. destruct (samples w !! id) as [s|]; [|discriminate].
  destruct (pending s) eqn:Hp; [|discriminate].
  destruct (computeAverageColor_fulfilled (sample_url s) ev) as [t Ht]. rewrite Ht.
  intros [= <-]. exists s, t. do 3 (split; [done|]).
  apply commit_same. rewrite accent_then_eq. destruct (cancelled s); reflexivity.
Qed.

Lemma step_elapse_inv ms w w' :
  step (Elapse ms) w = Some w' -> 0 <= ms /\ w' = set_now (now w + ms) w.
Proof.
  unfold step. destruct (Z.ltb_spec ms 0); [discriminate|]. intros [= <-]. done.
Qed.



(** *** The invariant *)

Lemma elapse_inv ms w w' :
  Inv w -> step (Elapse ms) w = Some w' -> Inv w'.
Proof.
  intros [] [_ ->]%step_elapse_inv. split; assumption.
Qed.

Lemma fade_inv h w w' :
  Inv w -> step (FadeClear h) w = Some w' -> Inv w'.
Proof.
  intros [Hidx Hnh Hlive (h0 & due0 & Href & Hcyc) Hint Htim Hrefs Hsam Hcl].
  intros (due & Hh & _ & ->)%step_fade_inv.
  split; world; try assumption.
  - intros h' t [_ ?]%lookup_delete_Some. eauto.
  - exists h0, due0. split; [done|]. rewrite lookup_delete_ne; [done|congruence].
  - intros h' ? ? ? [_ ?]%lookup_delete_Some. eauto.
  - intros h' ? [_ ?]%lookup_delete_Some. eauto.
Qed.

Lemma settle_inv id ev w w' :
  Inv w -> step (Settle id ev) w = Some w' -> Inv w'.
Proof.
  intros [Hidx Hnh Hlive (h0 & due0 & Href & Hcyc) Hint Htim Hrefs Hsam Hcl].
  intros (s & t & Hid & _ & _ & ->)%step_settle_inv.
  rewrite accent_then_eq.
  assert (Hsam' : forall id' s',
             <[id:=settle s]> (samples w) !! id' = Some s' -> cancelled s' = false ->
             accentCleanup w = Some id' /\ currentUrl w = Some (sample_url s')).
  { intros id' s' [(-> & <- & _)|[_ ?]]%list_lookup_insert_Some; [|by eauto].
    cbn. apply Hsam, Hid. }
  assert (Hcl' : forall id',
             accentCleanup w = Some id' ->
             exists s', <[id:=settle s]> (samples w) !! id' = Some s' /\ cancelled s' = false).
  { intros id' (s' & Hs' & Hc')%Hcl. destruct (decide (id = id')) as [->|Hne].
    - exists (settle s). rewrite list_lookup_insert_eq by (eapply lookup_lt_Some; eauto).
      split; [done|]. cbn. congruence.
    - exists s'. rewrite list_lookup_insert_ne by done. done. }
  destruct (cancelled s); split; world; try assumption; eauto.
Qed.

(** The accent effect keeps its part of the invariant. *)
Lemma accent_sync_samples b x :
  (forall id s, samples x !! id = Some s -> cancelled s = false ->
                accentCleanup x = Some id /\ currentUrl b = Some (sample_url s)) ->
  (forall id, accentCleanup x = Some id ->
              exists s, samples x !! id = Some s /\ cancelled s = false) ->
  (forall id s, samples (accent_sync imageUrls b x) !! id = Some s -> cancelled s = false ->
                accentCleanup (accent_sync imageUrls b x) = Some id /\
                currentUrl x = Some (sample_url s)) /\
  (forall id, accentCleanup (accent_sync imageUrls b x) = Some id ->
              exists s, samples (accent_sync imageUrls b x) !! id = Some s /\
                        cancelled s = false).
Proof.
  intros Hsam Hcl. unfold accent_sync. case_bool_decide as Hurl.
  { rewrite <- Hurl. auto. }
  assert (Hall : forall id s, samples (accent_cleanup x) !! id = Some s -> cancelled s = true).
  { unfold accent_cleanup. intros id s. destruct (accentCleanup x) as [id0|] eqn:Hc; world.
    - destruct (decide (id0 = id)) as [->|Hne].
      + rewrite list_lookup_alter_eq. destruct (samples x !! id); intros [= <-]; reflexivity.
      + rewrite list_lookup_alter_ne by done. intros Hs.
        destruct (cancelled s) eqn:Hcs; [done|]. destruct (Hsam _ _ Hs Hcs). congruence.
    - intros Hs. destruct (cancelled s) eqn:Hcs; [done|]. destruct (Hsam _ _ Hs Hcs). congruence. }
  assert (Hu : currentUrl (accent_cleanup x) = currentUrl x).
  { apply currentUrl_index. unfold accent_cleanup. case_match; reflexivity. }
  unfold accent_effect. rewrite Hu.
  destruct (currentUrl x) as [url|] eqn:Hx; [case_bool_decide|]; world.
  - split; [|discriminate]. intros id s Hs Hcs. rewrite (Hall _ _ Hs) in Hcs. done.
  - split.
    + intros id s [[_ Hs]|(-> & [= <-])]%lookup_snoc_Some Hcs.
      * rewrite (Hall _ _ Hs) in Hcs. done.
      * done.
    + intros id [= <-]. eexists. split; [apply lookup_snoc_Some; right; done|done].
  - split; [|discriminate]. intros id s Hs Hcs. rewrite (Hall _ _ Hs) in Hcs. done.
Qed.

Lemma inv_mount : Inv mount.
Proof.
  unfold mount, accent_effect. rewrite cycle_effect_eq.
  assert (Hidx : 0 <= 0 < Z.max 1 len) by lia.
  unfold initial. world. cbn [cleared].
  destruct (currentUrl _) as [url|] eqn:Hurl; [case_bool_decide|].
  all: split; world; try exact Hidx; try lia.
  all: try (eexists _, _; split; [reflexivity|apply lookup_insert_eq]).
  all: try (intros h ?; rewrite lookup_insert_Some, lookup_empty;
            intros [[<- _]|[_ [=]]]; lia).
  all: try (intros h ? ? ?; rewrite lookup_insert_Some, lookup_empty;
            intros [[<- _]|[_ [=]]]; reflexivity).
  all: try (intros h ?; rewrite lookup_insert_Some, lookup_empty;
            intros [[_ [=]]|[_ [=]]]).
  all: try discriminate.
  all: try (intros [|?] ?; cbn; intros [=]; done).
  - intros [|[|?]] ?; cbn; intros [= <-] _. split; [done|]. exact Hurl.
  - intros ? [= <-]. eexists. split; [reflexivity|done].
Qed.

Ltac timers_inv :=
  repeat match goal with
    | H : <[_:=_]> _ !! _ = Some _ |- _ =>
        apply lookup_insert_Some in H as [[? ?]|[? H]]
    | H : cleared _ _ !! _ = Some _ |- _ =>
        apply lookup_cleared_Some in H as [H ?]
    end; simplify_eq.

Ltac timers_close Hlive Hint Htim :=
  repeat match goal with
    | H : _ \/ _ |- _ => destruct H
    | H : timers _ !! _ = Some (interval _ _ _) |- _ =>
        pose proof (Hlive _ _ H); apply Hint in H
    | H : timers _ !! _ = Some (timeout _) |- _ =>
        pose proof (Hlive _ _ H); apply Htim in H
    end; try lia; try congruence.

Lemma tick_inv h w w' :
  Inv w -> step (Tick h) w = Some w' -> Inv w'.
Proof.
  intros [Hidx Hnh Hlive (h0 & due0 & Href & Hcyc) Hint Htim Hrefs Hsam Hcl].
  intros (due & delay & i & Hh & _ & ->)%step_tick_inv.
  pose proof (Hint _ _ _ _ Hh) as Hh0. assert (h0 = h) as -> by congruence.
  assert (delay = intervalMs options /\ i = index w) as [-> ->] by (split; congruence).
  clear Hh0 Hcyc.
  assert (Hh1 : 0 < h < nextHandle w) by eauto.
  rewrite commit_eq, cycle_tick_eq. world.
  match goal with |- Inv (accent_sync _ _ ?x) => set (x2 := x) end.
  destruct (accent_sync_samples w x2) as [Hsam' Hcl'].
  { subst x2. autorewrite with frame. world. assumption. }
  { subst x2. autorewrite with frame. world. assumption. }
  assert (Hidx' : 0 <= Z.rem (index w + 1) (Z.max 1 len) < Z.max 1 len)
    by (apply Z.rem_bound_pos; lia).
  split; autorewrite with frame; try rewrite currentUrl_accent_sync; try assumption.
  all: clear Hsam' Hcl'; subst x2; unfold cycle_sync; world.
  all: destruct (Z.eqb_spec (index w) (Z.rem (index w + 1) (Z.max 1 len))) as [Hsame|Hchg];
    [|rewrite cycle_effect_eq, cycle_cleanup_eq]; world.
  all: try lia.
  all: try (intros; timers_inv;
            match goal with
            | H : timers _ !! _ = Some _ |- _ => pose proof (Hlive _ _ H); lia
            end).
  { exists h. eexists. split; [done|]. rewrite lookup_insert_ne by lia.
    apply lookup_cleared_Some. split; [|right; intros Hf; exact (Hrefs _ Hf Href)].
    rewrite lookup_insert_eq, <- Hsame. reflexivity. }
  { eexists _, _. split; [done|]. apply lookup_insert_eq. }
  all: intros; timers_inv; eauto.
  all: timers_close Hlive Hint Htim.
  all: rewrite ?Href; intros [= ?]; lia.
Qed.

Theorem step_inv e w w' : Inv w -> step e w = Some w' -> Inv w'.
Proof.
  destruct e; eauto using elapse_inv, tick_inv, fade_inv, settle_inv.
Qed.

Theorem run_inv evs w w' : Inv w -> run evs w = Some w' -> Inv w'.
Proof.
  revert w. induction evs as [|e evs IH]; intros w HI; cbn.
  - intros [= <-]. exact HI.
  - destruct (step e w) as [w1|] eqn:He; [|discriminate]. cbn.
    apply IH. eapply step_inv; eassumption.
Qed.

Corollary reachable_inv evs w : run evs mount = Some w -> Inv w.
Proof. apply run_inv, inv_mount. Qed.

(** *** Runs *)

Lemma run_cons e evs w : run (e :: evs) w = step e w ≫= run evs.
Proof. reflexivity. Qed.

Lemma run_snoc evs e w :
  run (evs ++ [e]) w = run evs w ≫= step e.
Proof.
  revert w. induction evs as [|e' evs IH]; intros w; cbn.
  - destruct (step e w); reflexivity.
  - destruct (step e' w); cbn; [apply IH|reflexivity].
Qed.

(** Induction on the worlds a run reaches, one event at a time. *)
Lemma run_ind (w0 : World) (P : list Event -> World -> Prop) :
  P [] w0 ->
  (forall evs e w w',
      run evs w0 = Some w -> P evs w -> step e w = Some w' -> P (evs ++ [e]) w') ->
  forall evs w, run evs w0 = Some w -> P evs w.
Proof.
  intros Hnil Hsnoc evs. induction evs as [|e evs IH] using rev_ind; intros w.
  - intros [= <-]. exact Hnil.
  - rewrite run_snoc. destruct (run evs w0) as [w1|] eqn:Hr; [|discriminate].
    cbn. eauto.
Qed.

Lemma ticks_snoc evs e :
  ticks (evs ++ [e]) = (ticks evs + if is_tick e then 1 else 0)%nat.
Proof.
  unfold ticks. rewrite filter_app, length_app. f_equal.
  destruct e; reflexivity.
Qed.

(** What a tick does to the state the hook returns. *)
Lemma tick_fields h w w' :
  step (Tick h) w = Some w' ->
  exists due delay i,
    timers w !! h = Some (interval due delay i) /\ due <= now w /\
    index w' = Z.rem (index w + 1) (Z.max 1 len) /\
    previousIndex w' = Some i /\
    isFading w' = true /\
    accent w' = accent w /\
    now w' = now w.
Proof.
  intros (due & delay & i & Hh & Hdue & ->)%step_tick_inv.
  exists due, delay, i. rewrite commit_eq, cycle_tick_eq. unfold accent.
  autorewrite with frame. world. done.
Qed.

Lemma step_index e w w' :
  step e w = Some w' ->
  index w' = if is_tick e then Z.rem (index w + 1) (Z.max 1 len) else index w.
Proof.
  destruct e as [ms|h|h|id ev]; cbn [is_tick].
  - intros [_ ->]%step_elapse_inv. reflexivity.
  - intros (? & ? & ? & _ & _ & -> & _)%tick_fields. reflexivity.
  - intros (? & _ & _ & ->)%step_fade_inv. reflexivity.
  - intros (s & t & _ & _ & _ & ->)%step_settle_inv. rewrite accent_then_eq.
    destruct (cancelled s); reflexivity.
Qed.

Lemma tick_closure h due delay i w :
  Inv w -> timers w !! h = Some (interval due delay i) ->
  delay = intervalMs options /\ i = index w.
Proof.
  intros HI Hh. destruct (inv_cycle _ _ _ HI) as (h0 & due0 & Href & Hcyc).
  pose proof (inv_interval _ _ _ HI _ _ _ _ Hh). split; congruence.
Qed.

Lemma step_previousIndex e w w' :
  Inv w -> step e w = Some w' ->
  previousIndex w' = if is_tick e then Some (index w) else previousIndex w.
Proof.
  intros HI. destruct e as [ms|h|h|id ev]; cbn [is_tick].
  - intros [_ ->]%step_elapse_inv. reflexivity.
  - intros (? & ? & i & Hh & _ & _ & -> & _)%tick_fields.
    destruct (tick_closure _ _ _ _ _ HI Hh) as [_ ->]. reflexivity.
  - intros (? & _ & _ & ->)%step_fade_inv. reflexivity.
  - intros (s & t & _ & _ & _ & ->)%step_settle_inv. rewrite accent_then_eq.
    destruct (cancelled s); reflexivity.
Qed.

Lemma step_isFading e w w' :
  step e w = Some w' ->
  isFading w' = match e with
                | Tick _ => true
                | FadeClear _ => false
                | _ => isFading w
                end.
Proof.
  destruct e as [ms|h|h|id ev].
  - intros [_ ->]%step_elapse_inv. reflexivity.
  - intros (? & ? & ? & _ & _ & _ & _ & -> & _)%tick_fields. reflexivity.
  - intros (? & _ & _ & ->)%step_fade_inv. reflexivity.
  - intros (s & t & _ & _ & _ & ->)%step_settle_inv. rewrite accent_then_eq.
    destruct (cancelled s); reflexivity.
Qed.

Lemma mount_fields :
  index mount = 0 /\ previousIndex mount = None /\ isFading mount = false /\
  accent mount = ("85 37 131", "253 185 39").
Proof.
  unfold mount, accent_effect. rewrite cycle_effect_eq.
  repeat case_match; done.
Qed.

Lemma index_mount : index mount = 0.
Proof. apply mount_fields. Qed.

Lemma index_ticks evs w :
  run evs mount = Some w ->
  index w = Z.of_nat (ticks evs) mod Z.max 1 len.
Proof.
  revert evs w. apply run_ind.
  - rewrite index_mount, Z.mod_0_l by lia. reflexivity.
  - intros evs e w w' _ IH He. apply step_index in He. rewrite He, ticks_snoc.
    destruct (is_tick e); [|rewrite Nat.add_0_r; exact IH].
    rewrite IH, Z.rem_mod_nonneg.
    + rewrite Zplus_mod_idemp_l. f_equal. lia.
    + pose proof (Z.mod_pos_bound (Z.of_nat (ticks evs)) (Z.max 1 len)). lia.
    + lia.
Qed.

(** C1. For a sequence of length L >= 1, after N timer ticks the current
    index is N mod L: every tick replaces the index i by (i + 1) mod
    max(1, L), from index 0. *)
Theorem rotation_correct evs w :
  (1 <= length imageUrls)%nat ->
  run evs mount = Some w ->
  index w = Z.of_nat (ticks evs) mod Z.of_nat (length imageUrls).
Proof.
  intros HL Hrun. rewrite (index_ticks _ _ Hrun). f_equal. unfold len. lia.
Qed.

(** C9. With an empty sequence the hook is in a defined degenerate state:
    the divisor of the rotation is max(1, 0) = 1, so the index stays 0; the
    current and previous image references are absent; the cycle timer is
    live all the same, and once it is due a tick goes through and leaves
    the hook in the same state. *)
Theorem empty_sequence_degenerate evs w :
  imageUrls = [] ->
  run evs mount = Some w ->
  Z.max 1 len = 1 /\
  index w = 0 /\ currentUrl w = None /\ previousUrl imageUrls w = None /\
  exists h due,
    timerRef w = Some h /\
    timers w !! h = Some (interval due (intervalMs options) 0) /\
    forall ms, 0 <= ms -> due <= now w + ms ->
      exists w', run [Elapse ms; Tick h] w = Some w' /\
                 index w' = 0 /\ currentUrl w' = None /\
                 previousUrl imageUrls w' = None.
Proof.
  intros Hempty Hrun. pose proof (reachable_inv _ _ Hrun) as HI.
  assert (Hlen : len = 0) by (unfold len; rewrite Hempty; reflexivity).
  assert (Hnone : forall x, currentUrl x = None /\ previousUrl imageUrls x = None).
  { intros x. unfold currentUrl, previousUrl. rewrite Hlen. cbn.
    destruct (previousIndex x); done. }
  assert (Hzero : forall x, Inv x -> index x = 0).
  { intros x [Hx _ _ _ _ _ _ _ _]. rewrite Hlen in Hx. lia. }
  split; [lia|]. split; [auto|]. split; [apply Hnone|]. split; [apply Hnone|].
  destruct (inv_cycle _ _ _ HI) as (h & due & Href & Hh).
  rewrite (Hzero _ HI) in Hh. exists h, due. split; [done|]. split; [done|].
  intros ms Hms Hdue.
  assert (He : step (Elapse ms) w = Some (set_now (now w + ms) w)).
  { unfold step. destruct (Z.ltb_spec ms 0); [lia|reflexivity]. }
  destruct (step (Tick h) (set_now (now w + ms) w)) as [w'|] eqn:Ht.
  - exists w'. split; [unfold run; rewrite He; cbn [mbind option_bind]; rewrite Ht; done|].
    split; [|apply Hnone]. apply Hzero.
    eapply step_inv; [|exact Ht]. eapply step_inv; [exact HI|exact He].
  - exfalso. unfold step in Ht. world. rewrite Hh in Ht.
    destruct (Z.leb_spec due (now w + ms)); [discriminate|lia].
Qed.

Lemma js_nth_is_Some {A} (l : list A) i :
  0 <= i < Z.of_nat (length l) -> is_Some (js_nth l i).
Proof.
  intros Hi. unfold js_nth. destruct (Z.ltb_spec i 0); [lia|].
  apply lookup_lt_is_Some. lia.
Qed.

(** C8, as the code has it. [previousIndex] is absent until the first
    tick. From then on it is set, to the index that was current before
    the latest tick, and nothing clears it: it is set whenever the hook
    is fading, and it stays set after the fade flag has cleared; with a
    sequence that is not empty the previous image reference is then
    present as well. *)
Theorem previous_index_retained evs w :
  run evs mount = Some w ->
  previousIndex w
  = match ticks evs with
    | O => None
    | S n => Some (Z.of_nat n mod Z.max 1 len)
    end /\
  (isFading w = true -> is_Some (previousIndex w)) /\
  ((1 <= length imageUrls)%nat -> (0 < ticks evs)%nat ->
   is_Some (previousUrl imageUrls w)).
Proof.
  intros Hrun.
  enough (previousIndex w
          = match ticks evs with
            | O => None
            | S n => Some (Z.of_nat n mod Z.max 1 len)
            end /\
          (isFading w = true -> (0 < ticks evs)%nat)) as [Hp Hf].
  { split; [exact Hp|]. split.
    - intros Hw%Hf. rewrite Hp. destruct (ticks evs); [lia|eauto].
    - intros HL Ht. unfold previousUrl. rewrite Hp.
      destruct (ticks evs) as [|n]; [lia|].
      assert (Hlen : 0 < len) by (unfold len; lia).
      destruct (Z.ltb_spec 0 len); [|lia].
      replace (Z.max 1 len) with len by lia.
      pose proof (Z.mod_pos_bound (Z.of_nat n) len Hlen).
      rewrite Z.rem_small by lia. apply js_nth_is_Some. fold len. lia. }
  revert evs w Hrun. apply run_ind.
  - destruct mount_fields as (_ & -> & -> & _). split; [reflexivity|discriminate].
  - intros evs e w w' Hrun [IHp IHf] He.
    pose proof (reachable_inv _ _ Hrun) as HI.
    rewrite (step_previousIndex _ _ _ HI He), (step_isFading _ _ _ He), ticks_snoc.
    destruct e; cbn [is_tick]; rewrite ?Nat.add_0_r.
    2: { rewrite Nat.add_1_r, (index_ticks _ _ Hrun). split; [reflexivity|lia]. }
    all: split; [exact IHp|]; try exact IHf; discriminate.
Qed.

(** *** The fade flag *)

(** A tick that moves the index runs the cleanup of the cycle effect, and
    the cleanup clears the timeout the tick has just set. *)
Lemma tick_no_timeout h w w' :
  Inv w -> step (Tick h) w = Some w' ->
  index w <> Z.rem (index w + 1) (Z.max 1 len) ->
  forall h' due, timers w' !! h' <> Some (timeout due).
Proof.
  intros HI Hstep Hmove h' due'.
  destruct HI as [Hidx Hnh Hlive _ Hint Htim Hrefs _ _].
  apply step_tick_inv in Hstep as (due & delay & i & Hh & _ & ->).
  rewrite commit_eq, cycle_tick_eq. autorewrite with frame. unfold cycle_sync. world.
  destruct (Z.eqb_spec (index w) (Z.rem (index w + 1) (Z.max 1 len))); [done|].
  rewrite cycle_effect_eq, cycle_cleanup_eq. world.
  intros Hx. timers_inv. all: timers_close Hlive Hint Htim.
Qed.

(** A tick that leaves the index where it was (a sequence of at most one
    image) runs no cleanup: the one live timeout is the one it set, due
    [crossfadeMs] after the tick. *)
Lemma tick_timeout_pending h w w' :
  Inv w -> step (Tick h) w = Some w' ->
  index w = Z.rem (index w + 1) (Z.max 1 len) ->
  exists hf, fadeRef w' = Some hf /\
    forall h' due, timers w' !! h' = Some (timeout due) <->
                   h' = hf /\ due = now w + Z.max 0 (crossfadeMs options).
Proof.
  intros HI Hstep Hstay.
  destruct HI as [Hidx Hnh Hlive _ Hint Htim Hrefs _ _].
  apply step_tick_inv in Hstep as (due & delay & i & Hh & _ & ->).
  rewrite commit_eq, cycle_tick_eq. exists (nextHandle w).
  autorewrite with frame. unfold cycle_sync. world.
  destruct (Z.eqb_spec (index w) (Z.rem (index w + 1) (Z.max 1 len))); [|done].
  world. split; [done|]. intros h' due'. split.
  - intros Hx. timers_inv; [done|]. all: timers_close Hlive Hint Htim.
  - intros [-> ->]. apply lookup_insert_eq.
Qed.

Lemma clock_snoc evs e t : clock (evs ++ [e]) t = clock evs t + elapsed e.
Proof. revert t. induction evs as [|e' evs IH]; intros t; cbn; [reflexivity|apply IH]. Qed.

Lemma latest_tick_snoc evs e t :
  latest_tick (evs ++ [e]) t
  = if is_tick e then Some (clock evs t) else latest_tick evs t.
Proof.
  revert t. induction evs as [|e' evs IH]; intros t; cbn.
  - destruct e; reflexivity.
  - rewrite IH. destruct (is_tick e); [reflexivity|].
    destruct (latest_tick evs _); reflexivity.
Qed.

Lemma now_clock evs w : run evs mount = Some w -> now w = clock evs 0.
Proof.
  revert evs w. apply run_ind.
  - unfold mount, accent_effect. rewrite cycle_effect_eq. repeat case_match; reflexivity.
  - intros evs e w w' _ IH He. rewrite clock_snoc, <- IH.
    destruct e as [ms|h|h|id ev]; cbn [elapsed].
    + apply step_elapse_inv in He as [_ ->]. reflexivity.
    + apply tick_fields in He as (? & ? & ? & _ & _ & _ & _ & _ & _ & ->). lia.
    + apply step_fade_inv in He as (? & _ & _ & ->). cbn. lia.
    + apply step_settle_inv in He as (s & t & _ & _ & _ & ->).
      rewrite accent_then_eq. destruct (cancelled s); cbn; lia.
Qed.

(** A timeout that is live was set by the latest tick, and is due
    [crossfadeMs] after it. *)
Lemma timeout_due evs w h due :
  run evs mount = Some w ->
  timers w !! h = Some (timeout due) ->
  exists T, latest_tick evs 0 = Some T /\ due = T + Z.max 0 (crossfadeMs options).
Proof.
  intros Hrun. revert evs w Hrun h due. apply (run_ind mount
    (fun evs w => forall h due, timers w !! h = Some (timeout due) ->
       exists T, latest_tick evs 0 = Some T /\ due = T + Z.max 0 (crossfadeMs options))).
  - intros h due. unfold mount, accent_effect. rewrite cycle_effect_eq. unfold initial.
    repeat case_match; world; cbn [cleared];
      rewrite lookup_insert_Some, lookup_empty; intros [[_ [=]]|[_ [=]]].
  - intros evs e w w' Hrun IH He h due. rewrite latest_tick_snoc.
    pose proof (reachable_inv _ _ Hrun) as HI.
    destruct e as [ms|h0|h0|id ev]; cbn [is_tick].
    + apply step_elapse_inv in He as [_ ->]. apply IH.
    + destruct (decide (index w = Z.rem (index w + 1) (Z.max 1 len))) as [Hstay|Hmove].
      * destruct (tick_timeout_pending _ _ _ HI He Hstay) as (hf & _ & Hiff).
        intros [_ ->]%Hiff. rewrite <- (now_clock _ _ Hrun). eauto.
      * intros Hh. destruct (tick_no_timeout _ _ _ HI He Hmove _ _ Hh).
    + apply step_fade_inv in He as (? & _ & _ & ->). world.
      intros [_ Hh]%lookup_delete_Some. eauto.
    + apply step_settle_inv in He as (s & t & _ & _ & _ & ->).
      rewrite accent_then_eq. destruct (cancelled s); apply IH.
Qed.

(** X16. The fade flag is never cleared early: when the timeout runs
    [setIsFading(false)], at least [crossfadeMs] have passed since the
    latest tick. *)
Corollary fade_not_early evs h w :
  run (evs ++ [FadeClear h]) mount = Some w ->
  exists T, latest_tick evs 0 = Some T /\
            T + crossfadeMs options <= clock evs 0 /\ isFading w = false.
Proof.
  rewrite run_snoc. destruct (run evs mount) as [w0|] eqn:Hrun; [|discriminate].
  cbn [mbind option_bind]. intros He.
  apply step_fade_inv in He as (due & Hh & Hdue & ->).
  destruct (timeout_due _ _ _ _ Hrun Hh) as (T & HT & ->).
  exists T. rewrite <- (now_clock _ _ Hrun). split; [done|]. split; [lia|reflexivity].
Qed.


Lemma move_index i :
  2 <= len -> 0 <= i < Z.max 1 len -> i <> Z.rem (i + 1) (Z.max 1 len).
Proof.
  intros HL Hi. replace (Z.max 1 len) with len in * by lia.
  rewrite Z.rem_mod_nonneg by lia.
  destruct (decide (i + 1 = len)) as [Heq|].
  - rewrite Heq, Z.mod_same by lia. lia.
  - rewrite Z.mod_small by lia. lia.
Qed.

(** C4 fails on the code. With two images or more every tick moves the
    index, the cycle effect is torn down and set up again, and its cleanup
    clears the fade timeout together with the interval: no timeout is ever
    left to run [setIsFading(false)], and from the first tick on
    [isFading] is true for good, however much time passes. *)
Theorem fade_flag_never_clears evs w :
  (2 <= length imageUrls)%nat ->
  run evs mount = Some w ->
  (0 < ticks evs)%nat ->
  isFading w = true /\
  (forall h due, timers w !! h <> Some (timeout due)) /\
  (forall h, step (FadeClear h) w = None).
Proof.
  intros HL Hrun Hticks.
  assert (HL' : 2 <= len) by (unfold len; lia).
  enough ((forall h due, timers w !! h <> Some (timeout due)) /\
          ((0 < ticks evs)%nat -> isFading w = true)) as [Hno Hf].
  { split; [auto|]. split; [exact Hno|]. intros h. unfold step.
    destruct (timers w !! h) as [[|due]|] eqn:Hh; try reflexivity.
    destruct (Hno _ _ Hh). }
  clear Hticks. revert evs w Hrun. apply run_ind.
  - split; [|cbn; lia]. intros h due. unfold mount, accent_effect.
    rewrite cycle_effect_eq. unfold initial.
    repeat case_match; world; cbn [cleared];
      rewrite lookup_insert_Some, lookup_empty; intros [[_ [=]]|[_ [=]]].
  - intros evs e w w' Hrun [IHno IHf] He.
    pose proof (reachable_inv _ _ Hrun) as HI.
    rewrite (step_isFading _ _ _ He), ticks_snoc.
    destruct e as [ms|h|h|id ev]; cbn [is_tick]; rewrite ?Nat.add_0_r.
    + apply step_elapse_inv in He as [_ ->]. split; assumption.
    + split; [|reflexivity].
      eapply tick_no_timeout; [exact HI|exact He|].
      apply move_index; [exact HL'|apply HI].
    + apply step_fade_inv in He as (due & Hh & _). destruct (IHno _ _ Hh).
    + apply step_settle_inv in He as (s & t & _ & _ & _ & ->).
      rewrite accent_then_eq. destruct (cancelled s); split; assumption.
Qed.

(** *** The accent pair *)

Lemma settle_accent id ev w w' :
  step (Settle id ev) w = Some w' ->
  exists s t,
    samples w !! id = Some s /\ pending s = true /\
    computeAverageColor (sample_url s) ev = JS.Fulfilled t /\
    accent w' = (if cancelled s then accent w else accent_of t) /\
    samples w' = <[id:=settle s]> (samples w) /\
    accentCleanup w' = accentCleanup w /\ index w' = index w.
Proof.
  intros (s & t & Hid & Hp & Ht & ->)%step_settle_inv. exists s, t.
  rewrite accent_then_eq. unfold accent.
  destruct (cancelled s); world; [done|]. destruct (accent_of t). done.
Qed.

(** The callback of the interval writes to [previousIndex], [isFading],
    [index], [fadeRef] and the timer table (with the handle counter), and
    to nothing else. *)
Lemma cycle_tick_frame i w :
  accent (cycle_tick i w) = accent w /\
  timerRef (cycle_tick i w) = timerRef w /\
  now (cycle_tick i w) = now w /\
  samples (cycle_tick i w) = samples w /\
  accentCleanup (cycle_tick i w) = accentCleanup w.
Proof. rewrite cycle_tick_eq. done. Qed.

(** In a world the hook can reach, the callback leaves the interval in
    the timer table: the handle in [fadeRef] is never the one in
    [timerRef]. *)
Lemma cycle_tick_keeps_interval i w h t :
  Inv w -> timers w !! h = Some t -> (forall due, t <> timeout due) ->
  timers (cycle_tick i w) !! h = Some t.
Proof.
  intros HI Hh Ht. rewrite cycle_tick_eq. world.
  pose proof (inv_live _ _ _ HI _ _ Hh).
  rewrite lookup_insert_ne by lia. apply lookup_cleared_Some. split; [exact Hh|].
  right. intros Hf. destruct t as [due delay j|due]; [|by destruct (Ht due)].
  exact (inv_refs _ _ _ HI _ Hf (inv_interval _ _ _ HI _ _ _ _ Hh)).
Qed.

(** C10. A timer tick never changes the accent strings: the callback
    writes only to the rotation state and to the fade timer (it leaves the
    accent pair, [timerRef], the interval, the clock and the samples
    alone), and the effects that run after it do not publish colours. The
    strings change only when a sample resolves that is pending, not
    cancelled, and is the sample of the image that is current at that
    time. *)
Theorem accent_changes_only_on_sample evs w e w' :
  run evs mount = Some w ->
  step e w = Some w' ->
  (is_tick e = true -> accent w' = accent w) /\
  (accent w' <> accent w ->
   exists id ev s,
     e = Settle id ev /\ samples w !! id = Some s /\
     pending s = true /\ cancelled s = false /\
     accentCleanup w = Some id /\ currentUrl w = Some (sample_url s)) /\
  (forall i,
      accent (cycle_tick i w) = accent w /\
      timerRef (cycle_tick i w) = timerRef w /\
      now (cycle_tick i w) = now w /\
      samples (cycle_tick i w) = samples w /\
      accentCleanup (cycle_tick i w) = accentCleanup w /\
      forall h due delay j,
        timers w !! h = Some (interval due delay j) ->
        timers (cycle_tick i w) !! h = Some (interval due delay j)).
Proof.
  intros Hrun He. pose proof (reachable_inv _ _ Hrun) as HI.
  split; [|split].
  - destruct e; try discriminate. intros _.
    apply tick_fields in He as (? & ? & ? & _ & _ & _ & _ & _ & -> & _). reflexivity.
  - intros Hchg. destruct e as [ms|h|h|id ev].
    + apply step_elapse_inv in He as [_ ->]. done.
    + apply tick_fields in He as (? & ? & ? & _ & _ & _ & _ & _ & ? & _). done.
    + apply step_fade_inv in He as (? & _ & _ & ->). done.
    + apply settle_accent in He as (s & t & Hid & Hp & _ & Ha & _).
      destruct (cancelled s) eqn:Hc; [done|].
      destruct (inv_sample _ _ _ HI _ _ Hid Hc). eauto 10.
  - intros i. destruct (cycle_tick_frame i w) as (? & ? & ? & ? & ?).
    repeat (split; [assumption|]). intros h due delay j Hh.
    apply cycle_tick_keeps_interval; [exact HI|exact Hh|discriminate].
Qed.

(** *** Samples that arrive late *)



Lemma ticks_cons e evs :
  ticks (e :: evs) = ((if is_tick e then 1 else 0) + ticks evs)%nat.
Proof. destruct e; reflexivity. Qed.

(** Between two ticks the current image and the running sample stay. *)
Lemma quiet_step e w w' :
  is_tick e = false -> step e w = Some w' ->
  accentCleanup w' = accentCleanup w /\ index w' = index w.
Proof.
  destruct e as [ms|h|h|id ev]; try discriminate; intros _ He.
  - apply step_elapse_inv in He as [_ ->]. done.
  - apply step_fade_inv in He as (? & _ & _ & ->). done.
  - apply settle_accent in He as (s & t & _ & _ & _ & _ & _ & ? & ?). done.
Qed.




(** C6. A sample whose image fails to load resolves with the fallback
    triplet; if it is the sample in force, the hook publishes the primary
    "89 39 138" (85, 37 and 131 times 1.05, clamped and rounded) and the
    secondary derived from that primary by the lighten transform, which
    is "132 69 192". *)
Theorem fallback_determinism w id s :
  samples w !! id = Some s -> pending s = true -> cancelled s = false ->
  computeAverageColor (sample_url s) onerror = JS.Fulfilled (85, 37, 131)%float /\
  exists w',
    step (Settle id onerror) w = Some w' /\
    accentPrimaryRgb w' = "89 39 138" /\
    accentSecondaryRgb w'
    = deriveSecondaryFromPrimary (boost 85) (boost 37) (boost 131) /\
    accentSecondaryRgb w' = "132 69 192".
Proof.
  intros Hid Hp Hc. split; [reflexivity|].
  destruct (step (Settle id onerror) w) as [w'|] eqn:He.
  - exists w'. split; [reflexivity|].
    apply settle_accent in He as (s' & t & Hid' & _ & Ht & Ha & _).
    assert (s' = s) as -> by congruence. rewrite Hc in Ha.
    injection Ht as <-. unfold accent in Ha.
    assert (Hv : accent_of fallback = ("89 39 138", "132 69 192"))
      by (vm_compute; reflexivity).
    rewrite Hv in Ha. injection Ha as -> ->.
    split; [reflexivity|]. split; [|reflexivity]. vm_compute. reflexivity.
  - unfold step in He. rewrite Hid, Hp in He. discriminate.
Qed.

(** *** The image references *)

(** X5. With a sequence that is not empty the current image reference is
    never absent: after N ticks it is the element at N mod L. *)
Theorem current_image_present evs w :
  (1 <= length imageUrls)%nat ->
  run evs mount = Some w ->
  currentUrl w = imageUrls !! (ticks evs mod length imageUrls)%nat /\
  is_Some (currentUrl w).
Proof.
  intros HL Hrun. pose proof (index_ticks _ _ Hrun) as Hi.
  assert (Hlen : 0 < len) by (unfold len; lia).
  replace (Z.max 1 len) with len in Hi by lia.
  pose proof (Z.mod_pos_bound (Z.of_nat (ticks evs)) len Hlen) as Hb.
  assert (Hcur : currentUrl w = imageUrls !! (ticks evs mod length imageUrls)%nat).
  { unfold currentUrl, js_nth. destruct (Z.ltb_spec 0 len); [|lia].
    rewrite Z.rem_small by lia. destruct (Z.ltb_spec (index w) 0); [lia|].
    f_equal. rewrite Hi. unfold len. rewrite <- Nat2Z.inj_mod. apply Nat2Z.id. }
  split; [exact Hcur|]. rewrite Hcur. apply lookup_lt_is_Some.
  apply Nat.mod_upper_bound. lia.
Qed.

(** X6. A tick fades from the image that was showing: the previous image
    reference after the tick is the current image reference before it, and
    the fade flag is up. *)
Theorem crossfade_from_current evs w h w' :
  run evs mount = Some w ->
  step (Tick h) w = Some w' ->
  previousUrl imageUrls w' = currentUrl w /\ isFading w' = true.
Proof.
  intros Hrun He. pose proof (reachable_inv _ _ Hrun) as HI.
  pose proof (step_previousIndex _ _ _ HI He) as Hp. cbn [is_tick] in Hp.
  pose proof (step_isFading _ _ _ He) as Hf. cbn in Hf.
  split; [|exact Hf]. unfold previousUrl, currentUrl. rewrite Hp. reflexivity.
Qed.

(** X7. With a single image the previous and the current image reference
    are the same from the first tick on: both are that image. *)
Theorem single_image_same evs w url :
  imageUrls = [url] ->
  run evs mount = Some w ->
  (0 < ticks evs)%nat ->
  currentUrl w = Some url /\ previousUrl imageUrls w = Some url /\ index w = 0.
Proof.
  intros Hone Hrun Ht.
  assert (Hlen : len = 1) by (unfold len; rewrite Hone; reflexivity).
  assert (Hzero : forall x, Inv x -> index x = 0).
  { intros x Hx. pose proof (inv_index _ _ _ Hx). lia. }
  enough (previousIndex w = Some 0) as Hp.
  { pose proof (Hzero _ (reachable_inv _ _ Hrun)) as Hi.
    unfold currentUrl, previousUrl. rewrite Hp, Hi, Hlen, Hone. done. }
  revert evs w Hrun Ht. apply (run_ind mount
    (fun evs w => (0 < ticks evs)%nat -> previousIndex w = Some 0)).
  - cbn. lia.
  - intros evs e w w' Hrun IH He. pose proof (reachable_inv _ _ Hrun) as HI.
    rewrite (step_previousIndex _ _ _ HI He), ticks_snoc.
    destruct (is_tick e); [rewrite (Hzero _ HI); done|].
    rewrite Nat.add_0_r. exact IH.
Qed.

(** *** The timers *)

(** X8. The hook never leaves a timer behind: in every world it can reach
    the live timers are the interval whose handle is in [timerRef], with
    the current delay and index, and at most one timeout, whose handle is
    in [fadeRef]. *)
Theorem no_timer_leak evs w :
  run evs mount = Some w ->
  (exists h due,
      timerRef w = Some h /\
      timers w !! h = Some (interval due (intervalMs options) (index w))) /\
  (forall h t,
      timers w !! h = Some t ->
      timerRef w = Some h \/ (fadeRef w = Some h /\ exists due, t = timeout due)) /\
  (size (timers w) <= 2)%nat.
Proof.
  intros Hrun. pose proof (reachable_inv _ _ Hrun) as HI.
  assert (Hall : forall h t,
             timers w !! h = Some t ->
             timerRef w = Some h \/ (fadeRef w = Some h /\ exists due, t = timeout due)).
  { intros h [due delay i|due] Hh.
    - left. exact (inv_interval _ _ _ HI _ _ _ _ Hh).
    - right. split; [exact (inv_timeout _ _ _ HI _ _ Hh)|eauto]. }
  split; [exact (inv_cycle _ _ _ HI)|]. split; [exact Hall|].
  destruct (inv_cycle _ _ _ HI) as (h0 & _ & Href & _).
  assert (Hdom : dom (timers w) ⊆ {[h0]} ∪ from_option singleton ∅ (fadeRef w)).
  { intros h [t Hh]%elem_of_dom. destruct (Hall _ _ Hh) as [Ht|[Hf _]].
    - assert (h = h0) as -> by congruence. set_solver.
    - rewrite Hf. cbn. set_solver. }
  rewrite <- size_dom. apply subseteq_size in Hdom.
  etransitivity; [exact Hdom|]. rewrite size_union_alt, size_singleton.
  assert (size (from_option singleton (∅ : gset Z) (fadeRef w) ∖ {[h0]}) <= 1)%nat; [|lia].
  etransitivity; [apply subseteq_size, subseteq_difference_l; reflexivity|].
  destruct (fadeRef w); cbn; [rewrite size_singleton|rewrite size_empty]; lia.
Qed.

(** After a tick the interval that is live is due a whole delay after the
    tick, whether the tick left it in place or the cycle effect replaced
    it. *)
Lemma tick_interval_due h w w' :
  Inv w -> step (Tick h) w = Some w' ->
  forall h' due delay i,
    timers w' !! h' = Some (interval due delay i) ->
    due = now w + Z.max 0 (intervalMs options).
Proof.
  intros HI Hstep h' due' delay' i'.
  destruct HI as [Hidx Hnh Hlive (h0 & due0 & Href & Hcyc) Hint Htim Hrefs _ _].
  apply step_tick_inv in Hstep as (due & delay & i & Hh & _ & ->).
  pose proof (Hint _ _ _ _ Hh) as Hh0. assert (h0 = h) as -> by congruence.
  assert (delay = intervalMs options) as -> by congruence. clear Hh0.
  rewrite commit_eq, cycle_tick_eq. autorewrite with frame. unfold cycle_sync. world.
  destruct (Z.eqb_spec (index w) (Z.rem (index w + 1) (Z.max 1 len)));
    [|rewrite cycle_effect_eq, cycle_cleanup_eq]; world.
  all: intros Hx; timers_inv; try reflexivity.
  all: timers_close Hlive Hint Htim.
Qed.

Lemma interval_due evs w h due delay i :
  run evs mount = Some w ->
  timers w !! h = Some (interval due delay i) ->
  due = default 0 (latest_tick evs 0) + Z.max 0 (intervalMs options).
Proof.
  intros Hrun. revert evs w Hrun h due delay i. apply (run_ind mount
    (fun evs w => forall h due delay i,
       timers w !! h = Some (interval due delay i) ->
       due = default 0 (latest_tick evs 0) + Z.max 0 (intervalMs options))).
  - intros h due delay i. unfold mount, accent_effect. rewrite cycle_effect_eq.
    unfold initial.
    repeat case_match; world; cbn [cleared];
      rewrite lookup_insert_Some, lookup_empty; intros [[_ [= <- _ _]]|[_ [=]]];
      reflexivity.
  - intros evs e w w' Hrun IH He h due delay i. rewrite latest_tick_snoc.
    pose proof (reachable_inv _ _ Hrun) as HI.
    destruct e as [ms|h0|h0|id ev]; cbn [is_tick].
    + apply step_elapse_inv in He as [_ ->]. apply IH.
    + intros Hh. rewrite (tick_interval_due _ _ _ HI He _ _ _ _ Hh).
      rewrite (now_clock _ _ Hrun). reflexivity.
    + apply step_fade_inv in He as (? & _ & _ & ->). world.
      intros [_ Hh]%lookup_delete_Some. eauto.
    + apply step_settle_inv in He as (s & t & _ & _ & _ & ->).
      rewrite accent_then_eq. destruct (cancelled s); apply IH.
Qed.

(** X9. Ticks are never closer together than [intervalMs]: when the interval
    fires, at least [intervalMs] have passed since the latest tick (since
    the mount, for the first tick). *)
Theorem ticks_spaced evs h w :
  run (evs ++ [Tick h]) mount = Some w ->
  default 0 (latest_tick evs 0) + intervalMs options <= clock evs 0.
Proof.
  rewrite run_snoc. destruct (run evs mount) as [w0|] eqn:Hrun; [|discriminate].
  cbn [mbind option_bind]. intros He.
  apply step_tick_inv in He as (due & delay & i & Hh & Hdue & _).
  rewrite (interval_due _ _ _ _ _ _ Hrun Hh) in Hdue.
  rewrite <- (now_clock _ _ Hrun). lia.
Qed.

(** *** The samples *)

(** X10. The accent effect keeps one sample in force for the current image,
    and none when there is nothing to sample: the cleanup is absent exactly
    when the current image reference is [null] or the empty string, and
    otherwise its sample is not cancelled and is the one of the current
    image. *)
Theorem sample_tracks_current evs w :
  run evs mount = Some w ->
  match accentCleanup w with
  | None => falsy (currentUrl w)
  | Some id =>
      exists s, samples w !! id = Some s /\ cancelled s = false /\
                currentUrl w = Some (sample_url s) /\ sample_url s <> ""
  end.
Proof.
  intros Hrun.
  enough (match accentCleanup w with
          | None => falsy (currentUrl w)
          | Some id => ~ falsy (currentUrl w)
          end) as H.
  { destruct (accentCleanup w) as [id|] eqn:Hid; [|exact H].
    pose proof (reachable_inv _ _ Hrun) as HI.
    destruct (inv_cleanup _ _ _ HI _ Hid) as (s & Hs & Hc).
    destruct (inv_sample _ _ _ HI _ _ Hs Hc) as [_ Hu].
    exists s. repeat split; try assumption. intros He. apply H. right.
    rewrite Hu, He. reflexivity. }
  revert evs w Hrun. apply run_ind.
  - unfold mount. generalize (cycle_effect initial). intros x. unfold accent_effect.
    destruct (currentUrl x) as [url|] eqn:Hurl; [case_bool_decide as Hempty|];
      cbn [accentCleanup set_accentCleanup set_samples].
    + right. rewrite <- Hempty. exact Hurl.
    + intros [Hf|Hf]; [change (currentUrl x = None) in Hf
                      |change (currentUrl x = Some "") in Hf]; congruence.
    + left. exact Hurl.
  - intros evs e w w' Hrun IH He.
    destruct (decide (is_tick e = true)) as [Ht|Ht].
    + destruct e as [|h| |]; try discriminate.
      apply step_tick_inv in He as (due & delay & i & _ & _ & ->).
      rewrite commit_eq. set (x := cycle_sync options w _).
      assert (Hx : accentCleanup x = accentCleanup w).
      { subst x. rewrite cycle_tick_eq. autorewrite with frame. reflexivity. }
      rewrite currentUrl_accent_sync. unfold accent_sync.
      case_bool_decide as Hsame; [rewrite Hx, <- Hsame; exact IH|].
      assert (Hu : currentUrl (accent_cleanup x) = currentUrl x).
      { apply currentUrl_index. unfold accent_cleanup.
        destruct (accentCleanup x); reflexivity. }
      unfold accent_effect. rewrite Hu.
      destruct (currentUrl x) as [url|] eqn:Hurl; [case_bool_decide as Hempty|];
        cbn [accentCleanup set_accentCleanup set_samples].
      * right. congruence.
      * intros [Hf|Hf]; congruence.
      * left. reflexivity.
    + apply not_true_is_false in Ht. destruct (quiet_step _ _ _ Ht He) as [-> Hi].
      rewrite (currentUrl_index _ _ Hi). exact IH.
Qed.


(** X12. Until a sample settles the hook returns the default pair, however
    many ticks have passed. *)
Theorem default_until_first_sample evs w :
  run evs mount = Some w ->
  (forall id ev, Settle id ev ∉ evs) ->
  accentPrimaryRgb w = "85 37 131" /\ accentSecondaryRgb w = "253 185 39".
Proof.
  intros Hrun Hno.
  enough (accent w = ("85 37 131", "253 185 39")) as [= -> ->] by done.
  revert evs w Hrun Hno. apply (run_ind mount
    (fun evs w => (forall id ev, Settle id ev ∉ evs) ->
                  accent w = ("85 37 131", "253 185 39"))).
  - intros _. apply mount_fields.
  - intros evs e w w' _ IH He Hno.
    assert (Hpre : forall id ev, Settle id ev ∉ evs).
    { intros id ev Hin. apply (Hno id ev). apply elem_of_app. left. exact Hin. }
    rewrite <- (IH Hpre). destruct e as [ms|h|h|id ev].
    + apply step_elapse_inv in He as [_ ->]. reflexivity.
    + apply tick_fields in He as (? & ? & ? & _ & _ & _ & _ & _ & -> & _). reflexivity.
    + apply step_fade_inv in He as (? & _ & _ & ->). reflexivity.
    + destruct (Hno id ev). apply elem_of_app. right. apply list_elem_of_singleton.
      reflexivity.
Qed.

(** *** Preloading *)

(** X13. With two images or more the preload effect loads exactly the image
    the next tick will show, and that image exists; with fewer than two
    images it loads nothing. *)
Theorem preload_is_next evs w :
  run evs mount = Some w ->
  ((length imageUrls < 2)%nat -> preload imageUrls w = None) /\
  ((2 <= length imageUrls)%nat ->
   forall h w', step (Tick h) w = Some w' ->
     preload imageUrls w = Some (currentUrl w') /\ is_Some (currentUrl w')).
Proof.
  intros Hrun. pose proof (reachable_inv _ _ Hrun) as HI. unfold preload.
  fold len. split.
  - intros HL. destruct (Z.ltb_spec len 2); [reflexivity|unfold len in *; lia].
  - intros HL h w' He. assert (Hlen : 2 <= len) by (unfold len; lia).
    destruct (Z.ltb_spec len 2); [lia|].
    pose proof (step_index _ _ _ He) as Hi. cbn [is_tick] in Hi.
    replace (Z.max 1 len) with len in Hi by lia.
    pose proof (inv_index _ _ _ HI) as Hb.
    assert (Hr : 0 <= Z.rem (index w + 1) len < len) by (apply Z.rem_bound_pos; lia).
    assert (Hcur : currentUrl w' = js_nth imageUrls (Z.rem (index w + 1) len)).
    { unfold currentUrl. fold len. destruct (Z.ltb_spec 0 len); [|lia].
      rewrite Hi, (Z.rem_small (Z.rem (index w + 1) len)) by lia. reflexivity. }
    rewrite Hcur. split; [reflexivity|]. apply js_nth_is_Some. fold len. lia.
Qed.

(** *** Unmounting *)

Lemma cleared_twice ref1 ref2 (tm : gmap Z Timer) :
  cleared ref1 (cleared ref2 (cleared ref1 (cleared ref2 tm)))
  = cleared ref1 (cleared ref2 tm).
Proof.
  apply map_eq. intros h. apply option_eq. intros t.
  rewrite !lookup_cleared_Some. tauto.
Qed.

(** X14. Stopping twice is stopping once: running the cleanups of the hook
    again changes nothing, in any world. *)
Theorem unmount_idempotent (w : World) :
  unmount (unmount w) = unmount w.
Proof.
  unfold unmount, accent_cleanup. rewrite !cycle_cleanup_eq.
  destruct w as [? ? ? ? ? tref fref ? ? tm sm [id|]];
    cbv [set_timers set_samples]; world; rewrite cleared_twice; [|reflexivity].
  f_equal. apply list_eq. intros i.
  destruct (decide (id = i)) as [->|Hne].
  - rewrite !list_lookup_alter_eq. by destruct (sm !! i) as [[]|].
  - by rewrite !list_lookup_alter_ne.
Qed.

(** What is left of a world after the cleanups. *)
Lemma unmount_fields evs w :
  run evs mount = Some w ->
  timers (unmount w) = ∅ /\
  (forall id s, samples (unmount w) !! id = Some s -> cancelled s = true) /\
  accent (unmount w) = accent w /\ index (unmount w) = index w /\
  previousIndex (unmount w) = previousIndex w /\ isFading (unmount w) = isFading w.
Proof.
  intros Hrun. pose proof (reachable_inv _ _ Hrun) as HI.
  unfold unmount, accent_cleanup. rewrite cycle_cleanup_eq.
  assert (Hempty : cleared (fadeRef w) (cleared (timerRef w) (timers w)) = ∅).
  { apply map_eq. intros h. rewrite lookup_empty. apply eq_None_not_Some.
    intros [t Ht]. apply lookup_cleared_Some in Ht as [Ht Hf].
    apply lookup_cleared_Some in Ht as [Ht Hr].
    pose proof (inv_live _ _ _ HI _ _ Ht).
    destruct t as [due delay i|due].
    - pose proof (inv_interval _ _ _ HI _ _ _ _ Ht). destruct Hr; [lia|done].
    - pose proof (inv_timeout _ _ _ HI _ _ Ht). destruct Hf; [lia|done]. }
  world. destruct (accentCleanup w) as [id0|] eqn:Hc; world.
  all: split; [exact Hempty|]; split; [|done].
  - intros id s. destruct (decide (id0 = id)) as [->|Hne].
    + rewrite list_lookup_alter_eq. destruct (samples w !! id); intros [= <-]; reflexivity.
    + rewrite list_lookup_alter_ne by done. intros Hs.
      destruct (cancelled s) eqn:Hcs; [done|].
      destruct (inv_sample _ _ _ HI _ _ Hs Hcs). congruence.
  - intros id s Hs. destruct (cancelled s) eqn:Hcs; [done|].
    destruct (inv_sample _ _ _ HI _ _ Hs Hcs). congruence.
Qed.

(** X15. After the hook is unmounted nothing it returns changes again: no
    timer is left, so no tick and no fade timeout can run, and every sample
    still in flight is cancelled, so its result is dropped when it
    arrives. *)
Theorem unmount_stops evs w evs' w' :
  run evs mount = Some w ->
  run evs' (unmount w) = Some w' ->
  ticks evs' = 0%nat /\ (forall h, FadeClear h ∉ evs') /\
  accent w' = accent w /\ index w' = index w /\
  previousIndex w' = previousIndex w /\ isFading w' = isFading w.
Proof.
  intros Hrun. destruct (unmount_fields _ _ Hrun) as (Ht & Hs & <- & <- & <- & <-).
  generalize dependent (unmount w). clear Hrun w. intros x Ht Hs.
  revert x Ht Hs. induction evs' as [|e evs' IH]; intros x Ht Hs.
  - intros [= <-]. split; [reflexivity|]. split; [|done]. intros h Hin.
    by apply elem_of_nil in Hin.
  - rewrite run_cons. destruct (step e x) as [x1|] eqn:He; [|discriminate].
    cbn [mbind option_bind]. intros Hr.
    assert (Hx1 : is_tick e = false /\ (forall h, e <> FadeClear h) /\
                  timers x1 = ∅ /\
                  (forall id s, samples x1 !! id = Some s -> cancelled s = true) /\
                  accent x1 = accent x /\ index x1 = index x /\
                  previousIndex x1 = previousIndex x /\ isFading x1 = isFading x).
    { destruct e as [ms|h|h|id ev].
      - apply step_elapse_inv in He as [_ ->]. done.
      - apply step_tick_inv in He as (? & ? & ? & Hh & _). rewrite Ht in Hh.
        by rewrite lookup_empty in Hh.
      - apply step_fade_inv in He as (? & Hh & _). rewrite Ht in Hh.
        by rewrite lookup_empty in Hh.
      - apply step_settle_inv in He as (s & t & Hid & _ & _ & ->).
        rewrite accent_then_eq, (Hs _ _ Hid). world.
        do 3 (split; [done|]). split; [|done].
        intros id' s' [(-> & <- & _)|[_ ?]]%list_lookup_insert_Some; [|eauto].
        cbn. eauto. }
    destruct Hx1 as (Hq & Hnf & Ht1 & Hs1 & <- & <- & <- & <-).
    destruct (IH _ Ht1 Hs1 Hr) as (Hticks & Hfade & Hrest).
    split; [rewrite ticks_cons, Hq; exact Hticks|]. split; [|exact Hrest].
    intros h [Heq|Hin]%elem_of_cons; [by destruct (Hnf h)|by destruct (Hfade h)].
Qed.
End Invariants.

(** ** The theorems on concrete runs *)

Lemma rotation_correct_witness :
  index three_after_four_ticks = 4 mod 3.
Proof.
  apply (rotation_correct three_images None four_ticks three_after_four_ticks).
  - cbn. lia.
  - vm_compute. reflexivity.
Defined.


(** Had the late sample of the first image been accepted, the pair would
    be another one. *)
Example late_arrival_would_differ :
  computeAverageColor "a.jpg" (onload red_canvas) = JS.Fulfilled (255, 0, 0)%float /\
  accent_of (255, 0, 0)%float = ("255 0 0", "255 20 20") /\
  accent two_after_late_arrival = ("89 39 138", "132 69 192").
Proof.
  split; [vm_compute; reflexivity|]. split; vm_compute; reflexivity.
Qed.

Lemma fade_flag_never_clears_witness :
  isFading two_after_wait = true /\
  (forall h due, timers two_after_wait !! h <> Some (timeout due)) /\
  (forall h, step two_images None (FadeClear h) two_after_wait = None).
Proof.
  apply (fade_flag_never_clears two_images None tick_then_wait two_after_wait).
  - cbn. lia.
  - vm_compute. reflexivity.
  - vm_compute. lia.
Defined.

Lemma fallback_determinism_witness :
  computeAverageColor "a.jpg" onerror = JS.Fulfilled (85, 37, 131)%float /\
  exists w',
    step one_image None (Settle 0 onerror) (mount one_image None) = Some w' /\
    accentPrimaryRgb w' = "89 39 138" /\
    accentSecondaryRgb w'
    = deriveSecondaryFromPrimary (boost 85) (boost 37) (boost 131) /\
    accentSecondaryRgb w' = "132 69 192".
Proof.
  apply (fallback_determinism one_image None (mount one_image None) 0%nat
           {| sample_url := "a.jpg"; cancelled := false; pending := true |}).
  all: vm_compute; reflexivity.
Defined.

(** C8 fails on the code: with a single image the fade timeout does fire,
    800 ms after the tick; the hook is then not fading, and the previous
    index and the previous image reference are still there. *)
Lemma previous_kept_after_fade :
  ~ previous_only_while_fading one_image None.
Proof.
  intros Hclaim.
  assert (Hprev : previousUrl one_image one_after_fade = None).
  { apply (Hclaim tick_then_fade); [vm_compute; reflexivity|reflexivity]. }
  vm_compute in Hprev. discriminate Hprev.
Qed.

Example one_after_fade_state :
  isFading one_after_fade = false /\
  previousIndex one_after_fade = Some 0 /\
  previousUrl one_image one_after_fade = Some "a.jpg" /\
  currentUrl one_image one_after_fade = Some "a.jpg".
Proof. repeat split. Qed.

Lemma previous_index_retained_witness :
  previousIndex one_after_fade = Some 0 /\
  (isFading one_after_fade = true -> is_Some (previousIndex one_after_fade)) /\
  ((1 <= length one_image)%nat -> (0 < ticks tick_then_fade)%nat ->
   is_Some (previousUrl one_image one_after_fade)).
Proof.
  apply (previous_index_retained one_image None tick_then_fade one_after_fade).
  vm_compute. reflexivity.
Defined.

Lemma empty_sequence_degenerate_witness :
  Z.max 1 (len no_images) = 1 /\
  index none_after_fade = 0 /\ currentUrl no_images none_after_fade = None /\
  previousUrl no_images none_after_fade = None /\
  exists h due,
    timerRef none_after_fade = Some h /\
    timers none_after_fade !! h = Some (interval due (intervalMs None) 0) /\
    forall ms, 0 <= ms -> due <= now none_after_fade + ms ->
      exists w', run no_images None [Elapse ms; Tick h] none_after_fade = Some w' /\
                 index w' = 0 /\ currentUrl no_images w' = None /\
                 previousUrl no_images w' = None.
Proof.
  apply (empty_sequence_degenerate no_images None tick_then_fade none_after_fade).
  - reflexivity.
  - vm_compute. reflexivity.
Defined.

Lemma accent_changes_only_on_sample_witness :
  (is_tick (Tick 1) = true -> accent two_after_tick = accent two_before_tick) /\
  (accent two_after_tick <> accent two_before_tick ->
   exists id ev s,
     Tick 1 = Settle id ev /\ samples two_before_tick !! id = Some s /\
     pending s = true /\ cancelled s = false /\
     accentCleanup two_before_tick = Some id /\
     currentUrl two_images two_before_tick = Some (sample_url s)) /\
  (forall i,
      accent (cycle_tick two_images None i two_before_tick) = accent two_before_tick /\
      timerRef (cycle_tick two_images None i two_before_tick) = timerRef two_before_tick /\
      now (cycle_tick two_images None i two_before_tick) = now two_before_tick /\
      samples (cycle_tick two_images None i two_before_tick) = samples two_before_tick /\
      accentCleanup (cycle_tick two_images None i two_before_tick)
      = accentCleanup two_before_tick /\
      forall h due delay j,
        timers two_before_tick !! h = Some (interval due delay j) ->
        timers (cycle_tick two_images None i two_before_tick) !! h
        = Some (interval due delay j)).
Proof.
  apply (accent_changes_only_on_sample two_images None
           [Elapse 20000] two_before_tick (Tick 1) two_after_tick).
  all: vm_compute; reflexivity.
Defined.

(** ** The further properties on concrete runs *)

Lemma current_image_present_witness :
  currentUrl three_images three_after_four_ticks
  = three_images !! (ticks four_ticks mod length three_images)%nat /\
  is_Some (currentUrl three_images three_after_four_ticks).
Proof.
  apply (current_image_present three_images None four_ticks three_after_four_ticks).
  - cbn. lia.
  - vm_compute. reflexivity.
Defined.

Lemma crossfade_from_current_witness :
  previousUrl two_images two_after_tick = currentUrl two_images two_before_tick /\
  isFading two_after_tick = true.
Proof.
  apply (crossfade_from_current two_images None [Elapse 20000] two_before_tick 1).
  - vm_compute. reflexivity.
  - vm_compute. reflexivity.
Defined.

Lemma single_image_same_witness :
  currentUrl one_image one_after_fade = Some "a.jpg" /\
  previousUrl one_image one_after_fade = Some "a.jpg" /\
  index one_after_fade = 0.
Proof.
  apply (single_image_same one_image None tick_then_fade one_after_fade "a.jpg").
  - reflexivity.
  - vm_compute. reflexivity.
  - vm_compute. lia.
Defined.

Lemma no_timer_leak_witness :
  (exists h due,
      timerRef two_after_wait = Some h /\
      timers two_after_wait !! h
      = Some (interval due (intervalMs None) (index two_after_wait))) /\
  (forall h t,
      timers two_after_wait !! h = Some t ->
      timerRef two_after_wait = Some h \/
      (fadeRef two_after_wait = Some h /\ exists due, t = timeout due)) /\
  (size (timers two_after_wait) <= 2)%nat.
Proof.
  apply (no_timer_leak two_images None tick_then_wait two_after_wait).
  vm_compute. reflexivity.
Defined.

Lemma ticks_spaced_witness :
  default 0 (latest_tick three_ticks_and_wait 0) + intervalMs None
  <= clock three_ticks_and_wait 0.
Proof.
  apply (ticks_spaced three_images None three_ticks_and_wait 7 three_after_four_ticks).
  vm_compute. reflexivity.
Defined.

Lemma sample_tracks_current_witness :
  exists s, samples two_after_tick !! 1%nat = Some s /\ cancelled s = false /\
            currentUrl two_images two_after_tick = Some (sample_url s) /\
            sample_url s <> "".
Proof.
  apply (sample_tracks_current two_images None [Elapse 20000; Tick 1] two_after_tick).
  vm_compute. reflexivity.
Defined.


Lemma default_until_first_sample_witness :
  accentPrimaryRgb three_after_four_ticks = "85 37 131" /\
  accentSecondaryRgb three_after_four_ticks = "253 185 39".
Proof.
  apply (default_until_first_sample three_images None four_ticks three_after_four_ticks).
  - vm_compute. reflexivity.
  - intros id ev Hin. unfold four_ticks in Hin.
    repeat (apply elem_of_cons in Hin as [Hin|Hin]; [discriminate Hin|]).
    by apply elem_of_nil in Hin.
Defined.

Lemma preload_is_next_witness :
  preload two_images two_before_tick = Some (currentUrl two_images two_after_tick) /\
  is_Some (currentUrl two_images two_after_tick).
Proof.
  apply (proj2 (preload_is_next two_images None [Elapse 20000] two_before_tick
                  eq_refl)) with (h := 1).
  - cbn. lia.
  - vm_compute. reflexivity.
Defined.

Lemma unmount_stops_witness :
  ticks after_unmount = 0%nat /\ (forall h, FadeClear h ∉ after_unmount) /\
  accent two_after_unmount = accent two_after_tick /\
  index two_after_unmount = index two_after_tick /\
  previousIndex two_after_unmount = previousIndex two_after_tick /\
  isFading two_after_unmount = isFading two_after_tick.
Proof.
  apply (unmount_stops two_images None [Elapse 20000; Tick 1] two_after_tick
           after_unmount two_after_unmount).
  - vm_compute. reflexivity.
  - vm_compute. reflexivity.
Defined.

Lemma fade_not_early_witness :
  exists T, latest_tick [Elapse 20000; Tick 1; Elapse 800] 0 = Some T /\
            T + crossfadeMs None <= clock [Elapse 20000; Tick 1; Elapse 800] 0 /\
            isFading one_after_fade = false.
Proof.
  apply (fade_not_early one_image None [Elapse 20000; Tick 1; Elapse 800] 2
           one_after_fade).
  vm_compute. reflexivity.
Defined.

